(** * GraphChain backend: snapshot store, trace enrichment and security cache

    A shallow embedding of the request handlers of the Express server (the
    routes GET /api/trace, GET /api/metadata/address/:address,
    POST /api/addresses/snapshot, GET /api/security/check/:address and
    GET /api/snapshot/:snapshotName) together with the part of
    [migrations/database_schema.sql] those handlers touch.

    Handlers are written in a state-and-exception monad over a [world] that
    holds the PostgreSQL database reached through [pool], and a log of
    every database query and outbound HTTP call the handler issues.  The two
    upstream services (logic server, security server) are parameters of the
    handlers.

    Conventions of the model:
    - requests run one at a time, so that every [pool.query] of a request
      reaches the same connection and BEGIN ... COMMIT/ROLLBACK brackets
      the statements in between;
    - a table is the list of its rows in insertion order, and a SELECT
      returns matching rows in that order;
    - request properties have their declared type, or are absent, or are
      JSON null; numbers are integers;
    - the database checks what the schema declares: NOT NULL, the range of
      INTEGER, the length of VARCHAR(n), and primary keys. *)

From Stdlib Require Import ZArith Lia Ascii String.
From stdpp Require Import gmap strings list.

#[local] Set Warnings "-register-all".
Open Scope string_scope.
Open Scope list_scope.
Open Scope Z_scope.

(** ** JavaScript values *)

(** A property of a request body whose declared type is [A]: it may be
    absent ([undefined]), JSON [null], or a value of the declared type. *)
Inductive field (A : Type) : Type :=
| Undefined
| Null
| Val (a : A).
Arguments Undefined {A}.
Arguments Null {A}.
Arguments Val {A} a.

(** [v === undefined] *)
Definition is_undefined {A} (v : field A) : bool :=
  match v with Undefined => true | _ => false end.

(** Parsed JSON documents; numbers are the integers. *)
Inductive json : Type :=
| JNull
| JBool (b : bool)
| JNum (n : Z)
| JStr (s : string)
| JArr (items : list json)
| JObj (members : list (string * json)).

(** ToBoolean on a JSON value: [null], [false], [0] and the empty string
    are falsy; every array and object is truthy. *)
Definition json_truthy (j : json) : bool :=
  match j with
  | JNull => false
  | JBool b => b
  | JNum n => negb (n =? 0)
  | JStr s => negb (String.eqb s "")
  | JArr _ => true
  | JObj _ => true
  end.

(** ToBoolean on a string-typed value that may be [undefined]. *)
Definition str_truthy (s : option string) : bool :=
  match s with
  | Some s => negb (String.eqb s "")
  | None => false
  end.

(** ToBoolean on an integer-typed property. *)
Definition int_truthy (v : field Z) : bool :=
  match v with
  | Val n => negb (n =? 0)
  | _ => false
  end.

(** ToBoolean on a JSON-typed property that may be absent. *)
Definition prop_truthy (v : option json) : bool :=
  match v with
  | Some j => json_truthy j
  | None => false
  end.

(** ** Database schema (migrations/database_schema.sql) *)

(** Rows of [addresses]; the bytecode, source, ABI, compiler, constructor
    and licence columns are carried by no handler decision and are left
    out. *)
Record address_row := {
  a_address : string;
  a_is_contract : bool;
  a_is_proxy : bool;
  a_is_verified : bool;
  a_contract_name : option string;
  a_protocol_id : option Z
}.

Record protocol_row := {
  p_protocol_id : Z;
  p_protocol_name : string;
  p_protocol_symbol : option string;
  p_protocol_type : option string
}.

Record snapshot_row := {
  s_id : Z;
  s_name : string
}.

Record node_row := {
  n_node_id : Z;
  n_x : Z;
  n_y : Z;
  n_address : string;
  n_snapshot_id : Z
}.

Record security_row := {
  sc_address : string;
  sc_score : Z;
  sc_reports : json
}.

Record trace_row := {
  t_trace_id : string;
  t_from_addr : string;
  t_to_addr : string;
  t_storage_addr : string;
  t_action : string
}.

Record tables := {
  addresses : list address_row;
  protocols : list protocol_row;
  snapshots : list snapshot_row;
  snapshot_nodes : list node_row;
  security_check : list security_row;
  traces : list trace_row
}.

(** The connection behind [pool]: the visible tables, the tables as they
    were at [BEGIN] while a transaction is open, and the two SERIAL
    sequences (sequences are not transactional: ROLLBACK leaves them). *)
Record database := {
  db_tables : tables;
  db_tx : option tables;
  snapshots_id_seq : Z;
  snapshot_nodes_node_id_seq : Z
}.

(** Constraint violations and other reasons a statement is rejected. *)
Inductive db_error :=
| NotNullViolation (column : string)
| IntegerOutOfRange (column : string)
| ValueTooLong (column : string)
| DuplicateKey (table : string)
| ConnectionFailed.

(** INTEGER columns hold 32-bit signed integers. *)
Definition int4_ok (n : Z) : bool := (-2147483648 <=? n) && (n <=? 2147483647).

(** An INTEGER NOT NULL column receiving a bound parameter. *)
Definition int4_not_null (column : string) (v : field Z) : db_error + Z :=
  match v with
  | Val n => if int4_ok n then inr n else inl (IntegerOutOfRange column)
  | _ => inl (NotNullViolation column)
  end.

(** A VARCHAR(n) NOT NULL column receiving a bound parameter.  A value
    longer than [n] characters is rejected (PostgreSQL's silent cut of
    excess trailing blanks is not modelled). *)
Definition varchar_not_null (n : nat) (column : string) (v : field string)
  : db_error + string :=
  match v with
  | Val s => if (String.length s <=? n)%nat then inr s else inl (ValueTooLong column)
  | _ => inl (NotNullViolation column)
  end.

Definition set_tables (t : tables) (d : database) : database :=
  {| db_tables := t; db_tx := db_tx d;
     snapshots_id_seq := snapshots_id_seq d;
     snapshot_nodes_node_id_seq := snapshot_nodes_node_id_seq d |}.

Definition set_snapshots (l : list snapshot_row) (t : tables) : tables :=
  {| addresses := addresses t; protocols := protocols t; snapshots := l;
     snapshot_nodes := snapshot_nodes t; security_check := security_check t;
     traces := traces t |}.

Definition set_snapshot_nodes (l : list node_row) (t : tables) : tables :=
  {| addresses := addresses t; protocols := protocols t; snapshots := snapshots t;
     snapshot_nodes := l; security_check := security_check t;
     traces := traces t |}.

Definition set_security_check (l : list security_row) (t : tables) : tables :=
  {| addresses := addresses t; protocols := protocols t; snapshots := snapshots t;
     snapshot_nodes := snapshot_nodes t; security_check := l;
     traces := traces t |}.

(** ** Statements sent through [pool.query]

    One constructor per query text of the source, named after the
    variable that holds the text there, with its bound parameters. *)
Inductive sql :=
| BEGIN
| COMMIT
| ROLLBACK
| checkSnapshotQuery (name : string)
| deleteNodesQuery (id : Z)
| deleteSnapshotQuery (id : Z)
| createSnapshotQuery (name : string)
| insertNodeQuery (x y : field Z) (address : field string) (snapshot_id : Z)
| addressQuery (addressList : list string)
| addressMetadataQuery (address : string)
| addressesMetadataQuery (addresses : list string)
| checkExistingQuery (address : string)
| insertQuery (address : string) (score : field Z) (reports : json)
| snapshotQuery (name : string)
| nodesQuery (snapshot_id : Z)
| normalCallsQuery (addresses : list string)
| delegateCallsQuery (addresses : list string).

(** [addresses a LEFT JOIN protocols p ON a.protocol_id = p.protocol_id] *)
Record metadata_row := {
  m_address : address_row;
  m_protocol : option protocol_row
}.

(** A row of [SELECT node_id, x, y, address FROM snapshot_nodes]. *)
Record snapshot_node := {
  node_id : Z;
  node_x : Z;
  node_y : Z;
  node_address : string
}.

(** What [result.rows] holds (or, for INSERT ... RETURNING, [rows[0]]). *)
Definition result_of (q : sql) : Type :=
  match q with
  | BEGIN | COMMIT | ROLLBACK => unit
  | checkSnapshotQuery _ => list Z
  | deleteNodesQuery _ => unit
  | deleteSnapshotQuery _ => unit
  | createSnapshotQuery _ => Z
  | insertNodeQuery _ _ _ _ => unit
  | addressQuery _ => list address_row
  | addressMetadataQuery _ => list metadata_row
  | addressesMetadataQuery _ => list metadata_row
  | checkExistingQuery _ => list security_row
  | insertQuery _ _ _ => security_row
  | snapshotQuery _ => list Z
  | nodesQuery _ => list snapshot_node
  | normalCallsQuery _ => list (string * string * string)
  | delegateCallsQuery _ => list (string * string * string)
  end.

Definition normal_actions : list string := ["call"; "create"; "create2"].
Definition delegate_actions : list string := ["delegate_call"].

(** [SELECT id FROM snapshots WHERE name = $1] *)
Definition select_snapshot_ids (name : string) (t : tables) : list Z :=
  s_id <$> filter (λ s, s_name s = name) (snapshots t).

(** [DELETE FROM snapshot_nodes WHERE snapshot_id = $1] *)
Definition delete_nodes (id : Z) (t : tables) : tables :=
  set_snapshot_nodes (filter (λ n, n_snapshot_id n ≠ id) (snapshot_nodes t)) t.

(** [DELETE FROM snapshots WHERE id = $1]; [snapshot_nodes.snapshot_id] is
    declared ON DELETE CASCADE. *)
Definition delete_snapshot (id : Z) (t : tables) : tables :=
  set_snapshots (filter (λ s, s_id s ≠ id) (snapshots t)) (delete_nodes id t).

(** [INSERT INTO snapshots (name) VALUES ($1) RETURNING id]; the key comes
    from the sequence, which advances when the row is accepted. *)
Definition insert_snapshot (name : string) (d : database) : db_error + (Z * database) :=
  match varchar_not_null 255 "name" (Val name) with
  | inl e => inl e
  | inr name' =>
    let id := snapshots_id_seq d in
    if decide (id ∈ s_id <$> snapshots (db_tables d)) then inl (DuplicateKey "snapshots")
    else inr (id,
      {| db_tables := set_snapshots (snapshots (db_tables d) ++ [ {| s_id := id; s_name := name' |} ])
                        (db_tables d);
         db_tx := db_tx d;
         snapshots_id_seq := id + 1;
         snapshot_nodes_node_id_seq := snapshot_nodes_node_id_seq d |})
  end.

(** [INSERT INTO snapshot_nodes (x, y, address, snapshot_id) VALUES ($1, $2, $3, $4)];
    the referenced snapshot row was inserted by the same transaction, so
    the foreign key holds. *)
Definition insert_node (x y : field Z) (address : field string) (snapshot_id : Z)
    (d : database) : db_error + (unit * database) :=
  match int4_not_null "x" x, int4_not_null "y" y, varchar_not_null 42 "address" address with
  | inr x', inr y', inr address' =>
    let id := snapshot_nodes_node_id_seq d in
    if decide (id ∈ n_node_id <$> snapshot_nodes (db_tables d)) then inl (DuplicateKey "snapshot_nodes")
    else inr (tt,
      {| db_tables := set_snapshot_nodes
           (snapshot_nodes (db_tables d) ++
              [ {| n_node_id := id; n_x := x'; n_y := y'; n_address := address';
                   n_snapshot_id := snapshot_id |} ])
           (db_tables d);
         db_tx := db_tx d;
         snapshots_id_seq := snapshots_id_seq d;
         snapshot_nodes_node_id_seq := id + 1 |})
  | inl e, _, _ => inl e
  | _, inl e, _ => inl e
  | _, _, inl e => inl e
  end.

(** [SELECT address, contract_name, protocol_id FROM addresses WHERE address = ANY($1)] *)
Definition select_addresses (addressList : list string) (t : tables) : list address_row :=
  filter (λ a, a_address a ∈ addressList) (addresses t).

(** [SELECT a.*, p.protocol_name, ... FROM addresses a LEFT JOIN protocols p
     ON a.protocol_id = p.protocol_id WHERE a.address = $1] *)
Definition left_join_protocol (t : tables) (a : address_row) : list metadata_row :=
  match filter (λ p, a_protocol_id a = Some (p_protocol_id p)) (protocols t) with
  | [] => [ {| m_address := a; m_protocol := None |} ]
  | ps => (λ p, {| m_address := a; m_protocol := Some p |}) <$> ps
  end.

Definition select_address_metadata (address : string) (t : tables) : list metadata_row :=
  filter (λ a, a_address a = address) (addresses t) ≫= left_join_protocol t.

(** The same join [WHERE a.address IN ($1, ..., $n)] *)
Definition select_addresses_metadata (l : list string) (t : tables) : list metadata_row :=
  filter (λ a, a_address a ∈ l) (addresses t) ≫= left_join_protocol t.

(** [SELECT * FROM security_check WHERE address = $1] *)
Definition select_security_check (address : string) (t : tables) : list security_row :=
  filter (λ r, sc_address r = address) (security_check t).

(** [INSERT INTO security_check (address, score, reports) VALUES ($1, $2, $3::jsonb)
     RETURNING *]; the third parameter is [JSON.stringify(reports)], which
    is JSON text, so the cast to jsonb gives the document back. *)
Definition insert_security_check (address : string) (score : field Z) (reports : json)
    (d : database) : db_error + (security_row * database) :=
  match varchar_not_null 42 "address" (Val address), int4_not_null "score" score with
  | inr address', inr score' =>
    if decide (address' ∈ sc_address <$> security_check (db_tables d))
    then inl (DuplicateKey "security_check")
    else
      let row := {| sc_address := address'; sc_score := score'; sc_reports := reports |} in
      inr (row, set_tables (set_security_check (security_check (db_tables d) ++ [row])
                              (db_tables d)) d)
  | inl e, _ => inl e
  | _, inl e => inl e
  end.

(** [SELECT node_id, x, y, address FROM snapshot_nodes WHERE snapshot_id = $1] *)
Definition select_nodes (snapshot_id : Z) (t : tables) : list snapshot_node :=
  (λ n, {| node_id := n_node_id n; node_x := n_x n; node_y := n_y n;
           node_address := n_address n |}) <$>
  filter (λ n, n_snapshot_id n = snapshot_id) (snapshot_nodes t).

(** [SELECT from_addr, to_addr, action FROM traces
     WHERE action IN ('call', 'create', 'create2')
     AND from_addr = ANY($1) AND to_addr = ANY($1)
     GROUP BY from_addr, to_addr, action]: one row per distinct key. *)
Definition select_normal_calls (addrs : list string) (t : tables)
  : list (string * string * string) :=
  remove_dups
    ((λ r, (t_from_addr r, t_to_addr r, t_action r)) <$>
     filter (λ r, t_action r ∈ normal_actions ∧ t_from_addr r ∈ addrs ∧ t_to_addr r ∈ addrs)
            (traces t)).

(** [SELECT storage_addr, to_addr, action FROM traces
     WHERE action IN ('delegate_call')
     AND storage_addr = ANY($1) AND to_addr = ANY($1)
     GROUP BY storage_addr, to_addr, action] *)
Definition select_delegate_calls (addrs : list string) (t : tables)
  : list (string * string * string) :=
  remove_dups
    ((λ r, (t_storage_addr r, t_to_addr r, t_action r)) <$>
     filter (λ r, t_action r ∈ delegate_actions ∧ t_storage_addr r ∈ addrs ∧ t_to_addr r ∈ addrs)
            (traces t)).

(** Transaction control on the connection. *)
Definition begin_tx (d : database) : database :=
  match db_tx d with
  | None =>
    {| db_tables := db_tables d; db_tx := Some (db_tables d);
       snapshots_id_seq := snapshots_id_seq d;
       snapshot_nodes_node_id_seq := snapshot_nodes_node_id_seq d |}
  | Some _ => d
  end.

Definition commit_tx (d : database) : database :=
  {| db_tables := db_tables d; db_tx := None;
     snapshots_id_seq := snapshots_id_seq d;
     snapshot_nodes_node_id_seq := snapshot_nodes_node_id_seq d |}.

Definition rollback_tx (d : database) : database :=
  match db_tx d with
  | Some t =>
    {| db_tables := t; db_tx := None;
       snapshots_id_seq := snapshots_id_seq d;
       snapshot_nodes_node_id_seq := snapshot_nodes_node_id_seq d |}
  | None => d
  end.

(** The effect and the result of one statement on a reachable database. *)
Definition exec (q : sql) : database → db_error + (result_of q * database) :=
  match q return database → db_error + (result_of q * database) with
  | BEGIN => λ d, inr (tt, begin_tx d)
  | COMMIT => λ d, inr (tt, commit_tx d)
  | ROLLBACK => λ d, inr (tt, rollback_tx d)
  | checkSnapshotQuery name => λ d, inr (select_snapshot_ids name (db_tables d), d)
  | deleteNodesQuery id => λ d, inr (tt, set_tables (delete_nodes id (db_tables d)) d)
  | deleteSnapshotQuery id => λ d, inr (tt, set_tables (delete_snapshot id (db_tables d)) d)
  | createSnapshotQuery name => insert_snapshot name
  | insertNodeQuery x y address snapshot_id => insert_node x y address snapshot_id
  | addressQuery l => λ d, inr (select_addresses l (db_tables d), d)
  | addressMetadataQuery a => λ d, inr (select_address_metadata a (db_tables d), d)
  | addressesMetadataQuery l => λ d, inr (select_addresses_metadata l (db_tables d), d)
  | checkExistingQuery a => λ d, inr (select_security_check a (db_tables d), d)
  | insertQuery a s r => insert_security_check a s r
  | snapshotQuery name => λ d, inr (select_snapshot_ids name (db_tables d), d)
  | nodesQuery id => λ d, inr (select_nodes id (db_tables d), d)
  | normalCallsQuery l => λ d, inr (select_normal_calls l (db_tables d), d)
  | delegateCallsQuery l => λ d, inr (select_delegate_calls l (db_tables d), d)
  end.

(** ** Requests, responses and the outside world *)

(** A trace object as the logic server returns it. *)
Record trace := {
  from_addr : option string;
  to_addr : option string;
  storage_addr : option string;
  action : option string
}.

(** An element of [snapshot_nodes] in the body of POST /api/addresses/snapshot. *)
Record node := {
  x : field Z;
  y : field Z;
  address : field string
}.

(** [securityResponse.data] when it is an object. *)
Record security_data := {
  score : field Z;
  reports : option json
}.

(** A value of the [metadata] object of GET /api/trace. *)
Record metadata_entry := {
  contract_name : option string
}.

(** An object whose property values are strings, in property order. *)
Definition js_object : Type := list (string * string).

Inductive logic_request :=
| trace_address (address : string)
| trace_block (block : string).

Inductive exn :=
| DbError (e : db_error)
| AxiosError (url : string)
| JsError (message : string).

(** JSON bodies passed to [res.json] / [res.send]. *)
Inductive body :=
| error (message : string)
| error_message (error message : string)
| error_of (err : exn)
| error_details (error : string) (details : exn)
| traces_metadata (traces : list trace) (metadata : gmap string metadata_entry)
| address_metadata (row : metadata_row)
| metadata_map (metadataMap : gmap string metadata_row)
| snapshot_saved (message : string) (snapshot_id : Z)
| security_result (address : string) (score : Z) (reports : json) (cached : bool)
| snapshot_data (snapshot_name : string) (snapshot_id : Z)
    (nodes : list snapshot_node) (traces : list js_object).

Definition response : Type := Z * body.

Inductive http_call :=
| LogicServerGet (r : logic_request)
| PublicServerGet (address : string)
| SecurityServerPost (payload : body).

Inductive io_event :=
| DbQuery (q : sql)
| Http (c : http_call).

(** The state a handler runs against: the database, whether it can be
    reached, and the I/O issued so far (oldest first). *)
Record world := {
  w_db : database;
  w_db_up : bool;
  w_log : list io_event
}.

Definition log_event (e : io_event) (w : world) : world :=
  {| w_db := w_db w; w_db_up := w_db_up w; w_log := w_log w ++ [e] |}.

Definition set_db (d : database) (w : world) : world :=
  {| w_db := d; w_db_up := w_db_up w; w_log := w_log w |}.

(** ** The handler monad: state over [world], with exceptions *)

Inductive outcome (A : Type) : Type :=
| Ok (a : A)
| Throw (e : exn).
Arguments Ok {A} a.
Arguments Throw {A} e.

Definition M (A : Type) : Type := world → outcome A * world.

Definition ret {A} (a : A) : M A := λ w, (Ok a, w).

Definition bind {A B} (m : M A) (k : A → M B) : M B :=
  λ w, match m w with
       | (Ok a, w') => k a w'
       | (Throw e, w') => (Throw e, w')
       end.

Definition throw {A} (e : exn) : M A := λ w, (Throw e, w).

(** [try { body } catch (e) { handler }] *)
Definition try_catch {A} (body : M A) (handler : exn → M A) : M A :=
  λ w, match body w with
       | (Ok a, w') => (Ok a, w')
       | (Throw e, w') => handler e w'
       end.

Declare Scope handler_scope.
Delimit Scope handler_scope with handler.
Notation "'let*' v := 'await' m 'in' k" := (bind m (λ v, k))
  (at level 10, v name, m at level 100, k at level 200) : handler_scope.
Notation "'await' m ;; k" := (bind m (λ _, k))
  (at level 10, m at level 99, k at level 200) : handler_scope.
Open Scope handler_scope.

(** [await pool.query(text, params)]: the call is logged, and fails when
    the database is unreachable or rejects the statement. *)
Definition pool_query (q : sql) : M (result_of q) :=
  λ w, let w := log_event (DbQuery q) w in
       if w_db_up w then
         match exec q (w_db w) with
         | inr (r, d) => (Ok r, set_db d w)
         | inl e => (Throw (DbError e), w)
         end
       else (Throw (DbError ConnectionFailed), w).

(** ** Pure helpers of the handlers *)

(** The character class [[a-fA-F0-9]]. *)
Definition is_hex_char (c : ascii) : bool :=
  let n := nat_of_ascii c in
  ((97 <=? n) && (n <=? 102) || (65 <=? n) && (n <=? 70) || (48 <=? n) && (n <=? 57))%nat.

(** [[a-fA-F0-9]{n}$]: exactly [n] characters of the class, then the end
    of the input. *)
Fixpoint hex_run (n : nat) (s : string) : bool :=
  match n, s with
  | O, EmptyString => true
  | S n, String c s => is_hex_char c && hex_run n s
  | _, _ => false
  end.

(** [address.match(/^0x[a-fA-F0-9]{40}$/)] *)
Definition address_regex (s : string) : bool :=
  match s with
  | String "0" (String "x" rest) => hex_run 40 rest
  | _ => false
  end.

(** [uniqueAddresses.add(v)] guarded by [if (v)]; a [Set] keeps insertion
    order and ignores values it already holds. *)
Definition add_if_truthy (v : option string) (uniqueAddresses : list string) : list string :=
  match v with
  | Some a =>
    if str_truthy v then
      if decide (a ∈ uniqueAddresses) then uniqueAddresses else uniqueAddresses ++ [a]
    else uniqueAddresses
  | None => uniqueAddresses
  end.

(** The body of [traces.forEach(trace => ...)] and the loop itself;
    the result is [[...uniqueAddresses]]. *)
Definition add_trace_addresses (uniqueAddresses : list string) (t : trace) : list string :=
  add_if_truthy (storage_addr t)
    (add_if_truthy (to_addr t)
       (add_if_truthy (from_addr t) uniqueAddresses)).

Definition unique_addresses (traces : list trace) : list string :=
  fold_left add_trace_addresses traces [].

(** [addressResult.rows.forEach(row => { ... metadata[row.address] = {contract_name} })];
    the grouping by protocol built in the same loop is never read. *)
Definition metadata_of_rows (rows : list address_row) (metadata : gmap string metadata_entry)
  : gmap string metadata_entry :=
  fold_left (λ metadata row,
               <[a_address row := {| contract_name := a_contract_name row |}]> metadata)
            rows metadata.

(** [addressList.forEach(addr => { if (!metadata[addr]) metadata[addr] = {contract_name: null} })];
    keys are addresses, never names of inherited object members. *)
Definition fill_missing (addressList : list string) (metadata : gmap string metadata_entry)
  : gmap string metadata_entry :=
  fold_left (λ metadata addr,
               match metadata !! addr with
               | Some _ => metadata
               | None => <[addr := {| contract_name := None |}]> metadata
               end)
            addressList metadata.

(** [address.split(',')] *)
Fixpoint split_commas_aux (cur : string) (s : string) : list string :=
  match s with
  | EmptyString => [cur]
  | String c s' =>
    if Ascii.eqb c "," then cur :: split_commas_aux "" s'
    else split_commas_aux (cur +:+ String c "") s'
  end.
Definition split_commas (s : string) : list string := split_commas_aux "" s.

(** The two shapes of a returned trace edge. *)
Definition normal_edge (r : string * string * string) : js_object :=
  let '(from_addr, to_addr, action) := r in
  [("from_addr", from_addr); ("to_addr", to_addr); ("action", action)].

Definition delegate_edge (r : string * string * string) : js_object :=
  let '(storage_addr, to_addr, action) := r in
  [("storage_addr", storage_addr); ("to_addr", to_addr); ("action", action)].

Definition is_2xx (status : Z) : bool := (200 <=? status) && (status <? 300).

(** ** The handlers *)

Section Handlers.

(** The logic server at LOGIC_SERVER_URL: [None] when the request fails
    (no connection, or a status outside 2xx). *)
Variable logic_server : logic_request → option (list trace).

(** The security server at SECURITY_SERVER_URL: [None] when the request
    fails, [Some None] when [securityResponse.data] is falsy, otherwise
    the response object. *)
Variable security_server : body → option (option security_data).

(** [await axios.get(`${LOGIC_SERVER_URL}/...`)] followed by [response.data] *)
Definition axios_get_logic (r : logic_request) : M (list trace) :=
  λ w, let w := log_event (Http (LogicServerGet r)) w in
       match logic_server r with
       | Some data => (Ok data, w)
       | None => (Throw (AxiosError "LOGIC_SERVER_URL"), w)
       end.

(** [await axios.post(`${SECURITY_SERVER_URL}`, payload)] followed by [.data] *)
Definition axios_post_security (payload : body) : M (option security_data) :=
  λ w, let w := log_event (Http (SecurityServerPost payload)) w in
       match security_server payload with
       | Some data => (Ok data, w)
       | None => (Throw (AxiosError "SECURITY_SERVER_URL"), w)
       end.

(** GET /api/trace *)
Definition get_api_trace (address tx block : option string) : M response :=
  try_catch
    (let* fetched := await
       (if str_truthy address then
          try_catch
            (let* traces := await axios_get_logic (trace_address (default "" address)) in
             ret (inr traces))
            (λ err, ret (inl (404, error "Address not found")))
        else if str_truthy tx then
          ret (inl (501, error_message "Transaction lookup not implemented"
                           "The transaction lookup feature is not currently supported"))
        else if str_truthy block then
          try_catch
            (let* traces := await axios_get_logic (trace_block (default "" block)) in
             ret (inr traces))
            (λ err, ret (inl (404, error "Block not found")))
        else ret (inl (400, error "Provide address, tx, or block in query params"))) in
     match fetched with
     | inl early => ret early
     | inr traces =>
       let addressList := unique_addresses traces in
       let* metadata := await
         (if (0 <? length addressList)%nat then
            try_catch
              (let* addressResult := await pool_query (addressQuery addressList) in
               ret (fill_missing addressList (metadata_of_rows addressResult ∅)))
              (λ dbError, ret ∅)
          else ret ∅) in
       ret (200, traces_metadata traces metadata)
     end)
    (λ err, ret (500, error_of err)).

(** GET /api/metadata/address/:address *)
Definition get_api_metadata_address (address : string) : M response :=
  try_catch
    (let addresses := split_commas address in
     if (length addresses =? 1)%nat then
       let* result := await pool_query (addressMetadataQuery address) in
       match result with
       | [] => ret (404, error "Address not found")
       | row :: _ => ret (200, address_metadata row)
       end
     else
       let* result := await pool_query (addressesMetadataQuery addresses) in
       ret (200, metadata_map
                   (fold_left (λ metadataMap row, <[a_address (m_address row) := row]> metadataMap)
                              result ∅)))
    (λ error, ret (500, error_of error)).

(** [await axios.get(`${PUBLIC_SERVER_URL}/api/metadata/address/${address}`)]
    followed by [.data]: the server calls its own metadata route, and
    axios rejects a status outside 2xx. *)
Definition axios_get_public_metadata (address : string) : M body :=
  λ w, let w := log_event (Http (PublicServerGet address)) w in
       match get_api_metadata_address address w with
       | (Ok (status, data), w') =>
         if is_2xx status then (Ok data, w')
         else (Throw (AxiosError "PUBLIC_SERVER_URL"), w')
       | (Throw e, w') => (Throw e, w')
       end.

(** The [for (const node of snapshot_nodes)] loop of the snapshot route;
    [Some r] when the loop body returns the response [r]. *)
Fixpoint insert_all_nodes (snapshotId : Z) (snapshot_nodes : list node)
  : M (option response) :=
  match snapshot_nodes with
  | [] => ret None
  | node :: rest =>
    if is_undefined (x node) || is_undefined (y node) || is_undefined (address node) then
      await pool_query ROLLBACK ;;
      ret (Some (400, error "Each node must have x, y, and address properties"))
    else
      await pool_query (insertNodeQuery (x node) (y node) (address node) snapshotId) ;;
      insert_all_nodes snapshotId rest
  end.

(** POST /api/addresses/snapshot; [snapshot_nodes] is [None] when the
    property is not an array. *)
Definition post_api_addresses_snapshot
    (snapshot_name : option string) (snapshot_nodes : option (list node)) : M response :=
  match snapshot_nodes with
  | Some nodes =>
    if str_truthy snapshot_name then
      let name := default "" snapshot_name in
      try_catch
        (await pool_query BEGIN ;;
         let* existingSnapshot := await pool_query (checkSnapshotQuery name) in
         await (match existingSnapshot with
                | id :: _ =>
                  await pool_query (deleteNodesQuery id) ;;
                  pool_query (deleteSnapshotQuery id)
                | [] => ret tt
                end) ;;
         let* snapshotId := await pool_query (createSnapshotQuery name) in
         let* returned := await insert_all_nodes snapshotId nodes in
         match returned with
         | Some r => ret r
         | None =>
           await pool_query COMMIT ;;
           ret (200, snapshot_saved "Snapshot created/updated successfully" snapshotId)
         end)
        (λ error,
           await pool_query ROLLBACK ;;
           ret (500, error_of error))
    else ret (400, error "Invalid request body. snapshot_name and snapshot_nodes array are required")
  | None => ret (400, error "Invalid request body. snapshot_name and snapshot_nodes array are required")
  end.

(** GET /api/security/check/:address *)
Definition get_api_security_check (address : string) : M response :=
  if negb (str_truthy (Some address)) || negb (address_regex address) then
    ret (400, error "Invalid Ethereum address format")
  else
    try_catch
      (let* existingResult := await pool_query (checkExistingQuery address) in
       match existingResult with
       | row :: _ =>
         ret (200, security_result (sc_address row) (sc_score row) (sc_reports row) true)
       | [] =>
         try_catch
           (let* address_metadata := await axios_get_public_metadata address in
            let* securityResponse := await axios_post_security address_metadata in
            match securityResponse with
            | None => throw (JsError "Invalid response from security service")
            | Some data =>
              if negb (int_truthy (score data)) || negb (prop_truthy (reports data)) then
                throw (JsError "Invalid response from security service")
              else
                let* insertResult := await
                  pool_query (insertQuery address (score data) (default JNull (reports data))) in
                ret (200, security_result (sc_address insertResult) (sc_score insertResult)
                            (sc_reports insertResult) false)
            end)
           (λ serviceError,
              ret (500, error_details "Error contacting security service" serviceError))
       end)
      (λ error, ret (500, error_of error)).

(** GET /api/snapshot/:snapshotName *)
Definition get_api_snapshot (snapshotName : string) : M response :=
  try_catch
    (let* snapshotResult := await pool_query (snapshotQuery snapshotName) in
     match snapshotResult with
     | [] => ret (404, error "Snapshot not found")
     | snapshotId :: _ =>
       let* nodesResult := await pool_query (nodesQuery snapshotId) in
       let addresses := node_address <$> (nodesResult : list snapshot_node) in
       if (length addresses =? 0)%nat then
         ret (200, snapshot_data snapshotName snapshotId [] [])
       else
         let* normalCallsResult := await pool_query (normalCallsQuery addresses) in
         let* delegateCallsResult := await pool_query (delegateCallsQuery addresses) in
         let traces := (normal_edge <$> normalCallsResult) ++
                       (delegate_edge <$> delegateCallsResult) in
         ret (200, snapshot_data snapshotName snapshotId nodesResult traces)
     end)
    (λ error, ret (500, error_of error)).

End Handlers.

(** * Vocabulary of the properties *)

Definition add_log (l : list io_event) (w : world) : world :=
  {| w_db := w_db w; w_db_up := w_db_up w; w_log := w_log w ++ l |}.

(** The number of requests sent to the security server so far. *)
Definition is_scorer_call (e : io_event) : bool :=
  match e with
  | Http (SecurityServerPost _) => true
  | _ => false
  end.

Definition scorer_calls (w : world) : nat :=
  length (filter (λ e, is_scorer_call e = true) (w_log w)).

(** Whether a logged event is a query against the trace ledger. *)
Definition is_trace_query (e : io_event) : bool :=
  match e with
  | DbQuery (normalCallsQuery _) | DbQuery (delegateCallsQuery _) => true
  | _ => false
  end.

(** What GET /api/snapshot/:snapshotName answers while the database is
    reachable, as a function of the tables alone, and the queries it
    issues on the way. *)
Definition snapshot_response (snapshotName : string) (t : tables) : response :=
  match select_snapshot_ids snapshotName t with
  | [] => (404, error "Snapshot not found")
  | snapshotId :: _ =>
    let nodes := select_nodes snapshotId t in
    match nodes with
    | [] => (200, snapshot_data snapshotName snapshotId [] [])
    | _ :: _ =>
      let addresses := node_address <$> nodes in
      (200, snapshot_data snapshotName snapshotId nodes
              ((normal_edge <$> select_normal_calls addresses t) ++
               (delegate_edge <$> select_delegate_calls addresses t)))
    end
  end.

Definition snapshot_queries (snapshotName : string) (t : tables) : list io_event :=
  DbQuery (snapshotQuery snapshotName) ::
  match select_snapshot_ids snapshotName t with
  | [] => []
  | snapshotId :: _ =>
    DbQuery (nodesQuery snapshotId) ::
    match select_nodes snapshotId t with
    | [] => []
    | nodes =>
      let addresses := node_address <$> nodes in
      [DbQuery (normalCallsQuery addresses); DbQuery (delegateCallsQuery addresses)]
    end
  end.

(** ** Sample data *)

Definition addr_A : string := "0xaaaaaaaaaaaaaaaaaaaaaaaaaaaaaaaaaaaaaaaa".
Definition addr_B : string := "0xbbbbbbbbbbbbbbbbbbbbbbbbbbbbbbbbbbbbbbbb".

Definition empty_tables : tables :=
  {| addresses := []; protocols := []; snapshots := []; snapshot_nodes := [];
     security_check := []; traces := [] |}.

(** A freshly migrated database: no rows, both sequences at 1. *)
Definition empty_database : database :=
  {| db_tables := empty_tables; db_tx := None;
     snapshots_id_seq := 1; snapshot_nodes_node_id_seq := 1 |}.

Definition empty_world : world :=
  {| w_db := empty_database; w_db_up := true; w_log := [] |}.

(** The three ledger rows of the aggregation example: two calls from A to
    B and one delegate call with storage address A and target B; and a
    snapshot "s" laying out A and B. *)
Definition example_ledger : list trace_row :=
  [ {| t_trace_id := "1"; t_from_addr := addr_A; t_to_addr := addr_B;
       t_storage_addr := addr_B; t_action := "call" |};
    {| t_trace_id := "2"; t_from_addr := addr_A; t_to_addr := addr_B;
       t_storage_addr := addr_B; t_action := "call" |};
    {| t_trace_id := "3"; t_from_addr := addr_A; t_to_addr := addr_B;
       t_storage_addr := addr_A; t_action := "delegate_call" |} ].

Definition example_ledger_world : world :=
  {| w_db :=
       {| db_tables :=
            {| addresses := []; protocols := [];
               snapshots := [ {| s_id := 1; s_name := "s" |} ];
               snapshot_nodes :=
                 [ {| n_node_id := 1; n_x := 0; n_y := 0; n_address := addr_A;
                      n_snapshot_id := 1 |};
                   {| n_node_id := 2; n_x := 10; n_y := 0; n_address := addr_B;
                      n_snapshot_id := 1 |} ];
               security_check := [];
               traces := example_ledger |};
          db_tx := None; snapshots_id_seq := 2; snapshot_nodes_node_id_seq := 3 |};
     w_db_up := true; w_log := [] |}.

(** ** Address shape, in the words of the specification *)

Definition hex_digits : list ascii :=
  list_ascii_of_string "0123456789abcdefABCDEF".

(** A well-formed address: the prefix [0x] followed by exactly 40
    hexadecimal characters (a fixed-length string of 42 characters). *)
Definition well_formed_address (s : string) : Prop :=
  ∃ digits, s = "0x" +:+ digits ∧ String.length digits = 40%nat ∧
            Forall (λ c, c ∈ hex_digits) (list_ascii_of_string digits).

(** A database that knows [addr_A] as a verified contract, and a security
    server that scores every request 85 with one report. *)
Definition addr_A_row : address_row :=
  {| a_address := addr_A; a_is_contract := true; a_is_proxy := false;
     a_is_verified := true; a_contract_name := Some "Vault"; a_protocol_id := None |}.

Definition known_address_world : world :=
  {| w_db :=
       {| db_tables :=
            {| addresses := [addr_A_row]; protocols := []; snapshots := [];
               snapshot_nodes := []; security_check := []; traces := [] |};
          db_tx := None; snapshots_id_seq := 1; snapshot_nodes_node_id_seq := 1 |};
     w_db_up := true; w_log := [] |}.

Definition sample_reports : json := JArr [JObj [("check", JStr "ownership"); ("passed", JBool true)]].

Definition sample_security_data : security_data :=
  {| score := Val 85; reports := Some sample_reports |}.

Definition sample_security_server : body → option (option security_data) :=
  λ _, Some (Some sample_security_data).

(** A security server whose answer has score 0. *)
Definition zero_score_server : body → option (option security_data) :=
  λ _, Some (Some {| score := Val 0; reports := Some sample_reports |}).

(** ** Snapshot store vocabulary *)

(** A node that misses [x], [y] or [address]. *)
Definition node_incomplete (n : node) : bool :=
  is_undefined (x n) || is_undefined (y n) || is_undefined (address n).

(** A node whose three values fit the columns of [snapshot_nodes]. *)
Definition node_accepted (n : node) : bool :=
  match x n, y n, address n with
  | Val x', Val y', Val address' =>
    int4_ok x' && int4_ok y' && (String.length address' <=? 42)%nat
  | _, _, _ => false
  end.


(** The request node a stored row came from. *)
Definition node_of_row (r : node_row) : node :=
  {| x := Val (n_x r); y := Val (n_y r); address := Val (n_address r) |}.




(** Sample request nodes: two complete ones, one whose [x] is JSON null,
    one without [address]. *)
Definition node_A : node := {| x := Val 0; y := Val 0; address := Val addr_A |}.
Definition node_B : node := {| x := Val 10; y := Val 0; address := Val addr_B |}.
Definition node_null_x : node := {| x := Null; y := Val 0; address := Val addr_A |}.

(** The database after the save route has opened its transaction and
    deleted the snapshot already stored under the name, if any; and the
    queries issued up to and including the insert of the new snapshot row. *)
Definition delete_existing (existing : list Z) (d : database) : database :=
  match existing with
  | id :: _ => set_tables (delete_snapshot id (delete_nodes id (db_tables d))) d
  | [] => d
  end.

Definition save_prepared (name : string) (d : database) : database :=
  delete_existing (select_snapshot_ids name (db_tables d)) (begin_tx d).

Definition save_prepare_queries (name : string) (d : database) : list io_event :=
  [DbQuery BEGIN; DbQuery (checkSnapshotQuery name)] ++
  match select_snapshot_ids name (db_tables d) with
  | id :: _ => [DbQuery (deleteNodesQuery id); DbQuery (deleteSnapshotQuery id)]
  | [] => []
  end ++
  [DbQuery (createSnapshotQuery name)].

(** Worlds reached by saving snapshot "s" twice on an empty database. *)
Definition world_after_first_save : world :=
  snd (post_api_addresses_snapshot (Some "s") (Some [node_A; node_B]) empty_world).


(** A snapshot row without node rows. *)
Definition empty_snapshot_world : world :=
  {| w_db :=
       {| db_tables :=
            {| addresses := []; protocols := [];
               snapshots := [ {| s_id := 1; s_name := "blank" |} ];
               snapshot_nodes := []; security_check := []; traces := [] |};
          db_tx := None; snapshots_id_seq := 2; snapshot_nodes_node_id_seq := 1 |};
     w_db_up := true; w_log := [] |}.

(** The same database as [known_address_world], unreachable. *)
Definition offline_world : world :=
  {| w_db := w_db known_address_world; w_db_up := false; w_log := [] |}.

(** A logic server that knows one call from A to B. *)
Definition sample_trace : trace :=
  {| from_addr := Some addr_A; to_addr := Some addr_B; storage_addr := None;
     action := Some "call" |}.

Definition sample_logic_server : logic_request → option (list trace) :=
  λ r, match r with
       | trace_address _ => Some [sample_trace]
       | trace_block _ => None
       end.


(** * Further vocabulary *)

(** What GET /api/trace does with its three query parameters: answer at
    once, or ask the logic server (with the 404 message used when that
    request fails). *)
Definition trace_target (address tx block : option string)
  : response + (logic_request * string) :=
  if str_truthy address then inr (trace_address (default "" address), "Address not found")
  else if str_truthy tx then
    inl (501, error_message "Transaction lookup not implemented"
                "The transaction lookup feature is not currently supported")
  else if str_truthy block then inr (trace_block (default "" block), "Block not found")
  else inl (400, error "Provide address, tx, or block in query params").


Definition is_db_query (e : io_event) : bool :=
  match e with DbQuery _ => true | Http _ => false end.

(** A string without comma. *)
Definition no_comma (s : string) : Prop := ","%char ∉ list_ascii_of_string s.


(** The world with another trace ledger. *)
Definition with_traces (ledger : list trace_row) (w : world) : world :=
  set_db
    (set_tables
       {| addresses := addresses (db_tables (w_db w));
          protocols := protocols (db_tables (w_db w));
          snapshots := snapshots (db_tables (w_db w));
          snapshot_nodes := snapshot_nodes (db_tables (w_db w));
          security_check := security_check (db_tables (w_db w));
          traces := ledger |}
       (w_db w))
    w.

(** The example ledger with two layouts of the same addresses: "s" places
    A then B, "dup" places B, then A twice. *)
Definition two_layouts_world : world :=
  {| w_db :=
       {| db_tables :=
            {| addresses := []; protocols := [];
               snapshots := [ {| s_id := 1; s_name := "s" |}; {| s_id := 2; s_name := "dup" |} ];
               snapshot_nodes :=
                 [ {| n_node_id := 1; n_x := 0; n_y := 0; n_address := addr_A;
                      n_snapshot_id := 1 |};
                   {| n_node_id := 2; n_x := 10; n_y := 0; n_address := addr_B;
                      n_snapshot_id := 1 |};
                   {| n_node_id := 3; n_x := 1; n_y := 1; n_address := addr_B;
                      n_snapshot_id := 2 |};
                   {| n_node_id := 4; n_x := 2; n_y := 2; n_address := addr_A;
                      n_snapshot_id := 2 |};
                   {| n_node_id := 5; n_x := 3; n_y := 3; n_address := addr_A;
                      n_snapshot_id := 2 |} ];
               security_check := [];
               traces := example_ledger |};
          db_tx := None; snapshots_id_seq := 3; snapshot_nodes_node_id_seq := 6 |};
     w_db_up := true; w_log := [] |}.

(** The [traces] of an answer of the snapshot read. *)
Definition answered_traces (o : outcome response) : list js_object :=
  match o with
  | Ok (_, snapshot_data _ _ _ edges) => edges
  | _ => []
  end.

Definition answered_nodes (o : outcome response) : list snapshot_node :=
  match o with
  | Ok (_, snapshot_data _ _ nodes _) => nodes
  | _ => []
  end.

(** The four actions the snapshot read asks the ledger for. *)
Definition read_actions : list string := normal_actions ++ delegate_actions.

(** * The webhook listener

    The second Express application of the repository: POST /webhook checks
    the signature of a push event and pulls the repository it names.  The
    HMAC, the shell and the text of inherited object members are
    parameters; strings stand for byte sequences. *)

Module Webhook.

Inductive js_error :=
| TypeError (message : string)
| RangeError (message : string).

(** What the handler reads of a request: the [x-hub-signature-256] header,
    [req.rawBody] (set only when the JSON body parser read the body) and
    [req.body?.repository?.full_name] when it is a string ([None] when it
    is undefined).  Strings are held as their UTF-8 bytes, so that
    [String.length] is the byte length of the buffer made from them. *)
Record request := {
  x_hub_signature_256 : option string;
  rawBody : option string;
  full_name : option string
}.

Definition SECRET : string := "your_webhook_secret".

(** The names every object literal inherits from [Object.prototype]. *)
Definition object_prototype_members : list string :=
  ["constructor"; "__defineGetter__"; "__defineSetter__"; "hasOwnProperty";
   "__lookupGetter__"; "__lookupSetter__"; "isPrototypeOf"; "propertyIsEnumerable";
   "toString"; "valueOf"; "__proto__"; "toLocaleString"].

(** [crypto.timingSafeEqual(Buffer.from(a), Buffer.from(b))]: raises when
    the byte lengths differ. *)
Definition timingSafeEqual (a b : string) : js_error + bool :=
  if (String.length a =? String.length b)%nat then inr (String.eqb a b)
  else inl (RangeError "Input buffers must have the same byte length").

Section Handler.

(** [crypto.createHmac('sha256', key).update(data).digest('hex')] *)
Variable hmac_sha256_hex : string → string → string.

(** [exec(command, callback)]: whether the command ends with an error. *)
Variable exec_fails : string → bool.

(** The text an inherited member turns into inside a template literal. *)
Variable member_text : string → string.

Definition verifySignature (req : request) : js_error + bool :=
  match rawBody req with
  | None => inl (TypeError "The data argument must be of type string or Buffer")
  | Some raw =>
    let hash := "sha256=" +:+ hmac_sha256_hex SECRET raw in
    match x_hub_signature_256 req with
    | None => inl (TypeError "The first argument must be of type string or Buffer")
    | Some signature => timingSafeEqual signature hash
    end
  end.

(** [REPO_MAP[repoFullName]], as text when it is truthy: the one own
    property, or a member inherited from [Object.prototype]. *)
Definition REPO_MAP (repoFullName : option string) : option string :=
  match repoFullName with
  | Some key =>
    if String.eqb key "DecodeFi/backend-morda" then Some "/home/craudit/backend"
    else if bool_decide (key ∈ object_prototype_members) then Some (member_text key)
    else None
  | None => None
  end.

(** [`${repoFullName}`] *)
Definition name_text (repoFullName : option string) : string :=
  default "undefined" repoFullName.

(** POST /webhook: the answer (or the exception the handler raises) and
    the shell commands it ran. *)
Definition post_webhook (req : request) : (js_error + Z * string) * list string :=
  match verifySignature req with
  | inl e => (inl e, [])
  | inr false => (inr (403, "Invalid signature"), [])
  | inr true =>
    let repoFullName := full_name req in
    match REPO_MAP repoFullName with
    | None => (inr (400, "Unknown repository: " +:+ name_text repoFullName), [])
    | Some repoPath =>
      let command := "cd " +:+ repoPath +:+ " && git pull origin main" in
      (inr (if exec_fails command then (500, "Pull failed")
            else (200, "Updated " +:+ name_text repoFullName)),
       [command])
    end
  end.

End Handler.

(** Sample parameters: a digest of 64 zeros, a shell that succeeds. *)
Definition sample_hmac : string → string → string :=
  λ _ _, "0000000000000000000000000000000000000000000000000000000000000000".
Definition sample_exec_fails : string → bool := λ _, false.
Definition sample_member_text : string → string := λ _, "function Object() { [native code] }".
Definition sample_signature : string :=
  "sha256=0000000000000000000000000000000000000000000000000000000000000000".
Definition sample_push (name : string) : request :=
  {| x_hub_signature_256 := Some sample_signature; rawBody := Some "{}";
     full_name := Some name |}.

End Webhook.

(** * Properties *)

(** ** Running a handler *)

Lemma pool_query_up (q : sql) (w : world) :
  w_db_up w = true →
  pool_query q w =
  match exec q (w_db w) with
  | inr (r, d) => (Ok r, set_db d (log_event (DbQuery q) w))
  | inl e => (Throw (DbError e), log_event (DbQuery q) w)
  end.
Proof.
  intros Hup. unfold pool_query. simpl. rewrite Hup. reflexivity.
Qed.

Lemma pool_query_down (q : sql) (w : world) :
  w_db_up w = false →
  pool_query q w = (Throw (DbError ConnectionFailed), log_event (DbQuery q) w).
Proof.
  intros Hup. unfold pool_query. simpl. rewrite Hup. reflexivity.
Qed.

(** ** Reading a snapshot *)

Lemma get_api_snapshot_up (snapshotName : string) (w : world) :
  w_db_up w = true →
  get_api_snapshot snapshotName w =
  (Ok (snapshot_response snapshotName (db_tables (w_db w))),
   add_log (snapshot_queries snapshotName (db_tables (w_db w))) w).
Proof.
  intros Hup. destruct w as [d up lg]. simpl in Hup. subst up.
  unfold get_api_snapshot, snapshot_response, snapshot_queries, try_catch, bind,
    pool_query, add_log, log_event, set_db, ret.
  simpl.
  destruct (select_snapshot_ids snapshotName (db_tables d)) as [|id ids]; simpl.
  - reflexivity.
  - destruct (select_nodes id (db_tables d)) as [|n ns]; simpl.
    + rewrite <- app_assoc. reflexivity.
    + rewrite <- !app_assoc. reflexivity.
Qed.

Lemma select_snapshot_ids_nil (name : string) (t : tables) :
  select_snapshot_ids name t = [] ↔ ∀ s, s ∈ snapshots t → s_name s ≠ name.
Proof.
  unfold select_snapshot_ids. split.
  - intros H s Hs Hn.
    apply fmap_nil_inv in H.
    exact (filter_nil_not_elem_of _ _ s H Hn Hs).
  - intros H.
    destruct (filter (λ s, s_name s = name) (snapshots t)) as [|s l] eqn:E; [reflexivity|].
    assert (Hs : s ∈ filter (λ s, s_name s = name) (snapshots t)) by (rewrite E; left).
    apply list_elem_of_filter in Hs as [Hn Hs]. destruct (H s Hs Hn).
Qed.

Lemma select_snapshot_ids_elem (name : string) (t : tables) (id : Z) :
  id ∈ select_snapshot_ids name t ↔ ∃ s, s ∈ snapshots t ∧ s_name s = name ∧ s_id s = id.
Proof.
  unfold select_snapshot_ids. rewrite list_elem_of_fmap. split.
  - intros (s & -> & Hs). apply list_elem_of_filter in Hs as [Hn Hs]. eauto.
  - intros (s & Hs & Hn & <-). exists s. split; [reflexivity|].
    apply list_elem_of_filter. auto.
Qed.

Lemma select_nodes_nil (id : Z) (t : tables) :
  select_nodes id t = [] ↔ ∀ n, n ∈ snapshot_nodes t → n_snapshot_id n ≠ id.
Proof.
  unfold select_nodes. split.
  - intros H n Hn Hid. apply fmap_nil_inv in H.
    exact (filter_nil_not_elem_of _ _ n H Hid Hn).
  - intros H.
    destruct (filter (λ n, n_snapshot_id n = id) (snapshot_nodes t)) as [|n l] eqn:E;
      [reflexivity|].
    assert (Hn : n ∈ filter (λ n, n_snapshot_id n = id) (snapshot_nodes t)) by (rewrite E; left).
    apply list_elem_of_filter in Hn as [Hid Hn]. destruct (H n Hn Hid).
Qed.

(** C5: reading a name with no stored snapshot answers 404 "Snapshot not
    found"; reading a stored snapshot that has no node rows answers 200
    with empty [nodes] and empty [traces], and on the way issues no query
    against the trace ledger (only the snapshot and node lookups) and
    leaves the database as it was. *)
Theorem read_snapshot_not_found_vs_empty (snapshotName : string) (w : world) :
  w_db_up w = true →
  ((∀ s, s ∈ snapshots (db_tables (w_db w)) → s_name s ≠ snapshotName) →
   fst (get_api_snapshot snapshotName w) = Ok (404, error "Snapshot not found")) ∧
  ((∃ s, s ∈ snapshots (db_tables (w_db w)) ∧ s_name s = snapshotName) →
   (∀ s n, s ∈ snapshots (db_tables (w_db w)) → s_name s = snapshotName →
           n ∈ snapshot_nodes (db_tables (w_db w)) → n_snapshot_id n ≠ s_id s) →
   ∃ id issued,
     get_api_snapshot snapshotName w =
       (Ok (200, snapshot_data snapshotName id [] []), add_log issued w) ∧
     issued = [DbQuery (snapshotQuery snapshotName); DbQuery (nodesQuery id)] ∧
     Forall (λ e, is_trace_query e = false) issued).
Proof.
  intros Hup. rewrite (get_api_snapshot_up _ _ Hup).
  unfold snapshot_response, snapshot_queries. split.
  - intros Hnone. rewrite (proj2 (select_snapshot_ids_nil _ _) Hnone). reflexivity.
  - intros (s & Hs & Hn) Hempty.
    destruct (select_snapshot_ids snapshotName (db_tables (w_db w))) as [|id ids] eqn:E.
    + destruct (proj1 (select_snapshot_ids_nil _ _) E s Hs Hn).
    + assert (Hid : id ∈ select_snapshot_ids snapshotName (db_tables (w_db w)))
        by (rewrite E; left).
      apply select_snapshot_ids_elem in Hid as (s' & Hs' & Hn' & <-).
      assert (Hnil : select_nodes (s_id s') (db_tables (w_db w)) = []).
      { apply select_nodes_nil. intros n Hin. eapply Hempty; eauto. }
      rewrite Hnil. exists (s_id s'), [DbQuery (snapshotQuery snapshotName); DbQuery (nodesQuery (s_id s'))].
      split; [reflexivity|]. split; [reflexivity|].
      repeat constructor.
Qed.

Lemma normal_edge_inj : Inj (=) (=) normal_edge.
Proof. intros [[f1 t1] a1] [[f2 t2] a2] H. unfold normal_edge in H. congruence. Qed.

Lemma delegate_edge_inj : Inj (=) (=) delegate_edge.
Proof. intros [[f1 t1] a1] [[f2 t2] a2] H. unfold delegate_edge in H. congruence. Qed.

Lemma normal_delegate_edge_ne (r1 r2 : string * string * string) :
  normal_edge r1 ≠ delegate_edge r2.
Proof. destruct r1 as [[f1 t1] a1], r2 as [[f2 t2] a2]. unfold normal_edge, delegate_edge. congruence. Qed.

Lemma select_normal_calls_elem (addrs : list string) (t : tables) (k : string * string * string) :
  k ∈ select_normal_calls addrs t ↔
  ∃ r, r ∈ traces t ∧ t_action r ∈ normal_actions ∧
       t_from_addr r ∈ addrs ∧ t_to_addr r ∈ addrs ∧
       k = (t_from_addr r, t_to_addr r, t_action r).
Proof.
  unfold select_normal_calls. rewrite elem_of_remove_dups, list_elem_of_fmap.
  split.
  - intros (r & -> & Hr). apply list_elem_of_filter in Hr as [(Ha & Hf & Ht) Hr].
    exists r. auto.
  - intros (r & Hr & Ha & Hf & Ht & ->). exists r. split; [reflexivity|].
    apply list_elem_of_filter. auto.
Qed.

Lemma select_delegate_calls_elem (addrs : list string) (t : tables) (k : string * string * string) :
  k ∈ select_delegate_calls addrs t ↔
  ∃ r, r ∈ traces t ∧ t_action r ∈ delegate_actions ∧
       t_storage_addr r ∈ addrs ∧ t_to_addr r ∈ addrs ∧
       k = (t_storage_addr r, t_to_addr r, t_action r).
Proof.
  unfold select_delegate_calls. rewrite elem_of_remove_dups, list_elem_of_fmap.
  split.
  - intros (r & -> & Hr). apply list_elem_of_filter in Hr as [(Ha & Hf & Ht) Hr].
    exists r. auto.
  - intros (r & Hr & Ha & Hf & Ht & ->). exists r. split; [reflexivity|].
    apply list_elem_of_filter. auto.
Qed.

(** C4: for a snapshot with at least one node, the returned [traces] hold
    exactly one edge per distinct key among the ledger rows whose two
    endpoints are both addresses of the snapshot's nodes: rows with action
    call, create or create2 give [{from_addr, to_addr, action}] keyed
    on the caller, rows with action delegate_call give
    [{storage_addr, to_addr, action}] keyed on the storage address, and no
    edge has any other shape. *)
Theorem read_snapshot_edges (snapshotName : string) (w w' : world)
    (name : string) (id : Z) (nodes : list snapshot_node) (edges : list js_object) :
  w_db_up w = true →
  get_api_snapshot snapshotName w = (Ok (200, snapshot_data name id nodes edges), w') →
  nodes ≠ [] →
  NoDup edges ∧
  ∀ e, e ∈ edges ↔
    (∃ r, r ∈ traces (db_tables (w_db w)) ∧
          t_action r ∈ ["call"; "create"; "create2"] ∧
          t_from_addr r ∈ node_address <$> nodes ∧
          t_to_addr r ∈ node_address <$> nodes ∧
          e = [("from_addr", t_from_addr r); ("to_addr", t_to_addr r); ("action", t_action r)]) ∨
    (∃ r, r ∈ traces (db_tables (w_db w)) ∧
          t_action r = "delegate_call" ∧
          t_storage_addr r ∈ node_address <$> nodes ∧
          t_to_addr r ∈ node_address <$> nodes ∧
          e = [("storage_addr", t_storage_addr r); ("to_addr", t_to_addr r);
               ("action", t_action r)]).
Proof.
  intros Hup Hrun Hne. rewrite (get_api_snapshot_up _ _ Hup) in Hrun.
  unfold snapshot_response in Hrun.
  destruct (select_snapshot_ids snapshotName (db_tables (w_db w))) as [|sid ids];
    [discriminate|].
  destruct (select_nodes sid (db_tables (w_db w))) as [|n ns] eqn:En.
  { inversion Hrun; subst. destruct Hne; reflexivity. }
  inversion Hrun; subst; clear Hrun.
  set (addrs := node_address <$> n :: ns).
  set (t := db_tables (w_db w)).
  split.
  - apply NoDup_app. split; [|split].
    + apply (@NoDup_fmap_2 _ _ normal_edge normal_edge_inj), NoDup_remove_dups.
    + intros e H1 H2.
      apply list_elem_of_fmap in H1 as (r1 & -> & _).
      apply list_elem_of_fmap in H2 as (r2 & H2 & _).
      exact (normal_delegate_edge_ne _ _ H2).
    + apply (@NoDup_fmap_2 _ _ delegate_edge delegate_edge_inj), NoDup_remove_dups.
  - intros e. rewrite elem_of_app, !list_elem_of_fmap. split.
    + intros [(k & -> & Hk)|(k & -> & Hk)].
      * left. apply select_normal_calls_elem in Hk as (r & Hr & Ha & Hf & Ht & ->).
        exists r. repeat split; auto.
      * right. apply select_delegate_calls_elem in Hk as (r & Hr & Ha & Hf & Ht & ->).
        exists r. apply list_elem_of_singleton in Ha. repeat split; auto.
    + intros [(r & Hr & Ha & Hf & Ht & ->)|(r & Hr & Ha & Hf & Ht & ->)].
      * left. exists (t_from_addr r, t_to_addr r, t_action r). split; [reflexivity|].
        apply select_normal_calls_elem. exists r. auto.
      * right. exists (t_storage_addr r, t_to_addr r, t_action r). split; [reflexivity|].
        apply select_delegate_calls_elem. exists r.
        repeat split; auto. rewrite Ha. left.
Qed.

(** No edge returned by GET /api/snapshot/:snapshotName has a [count]
    property. *)
Lemma read_snapshot_edges_have_no_count (snapshotName : string) (w w' : world)
    (name : string) (id : Z) (nodes : list snapshot_node) (edges : list js_object) :
  w_db_up w = true →
  get_api_snapshot snapshotName w = (Ok (200, snapshot_data name id nodes edges), w') →
  ∀ e, e ∈ edges → "count" ∉ e.*1.
Proof.
  intros Hup Hrun e He. rewrite (get_api_snapshot_up _ _ Hup) in Hrun.
  unfold snapshot_response in Hrun.
  destruct (select_snapshot_ids snapshotName (db_tables (w_db w))) as [|sid ids];
    [discriminate|].
  destruct (select_nodes sid (db_tables (w_db w))) as [|n ns] eqn:En;
    inversion Hrun; subst; clear Hrun.
  { inversion He. }
  apply elem_of_app in He as [He|He];
    apply list_elem_of_fmap in He as ([[a b] c] & -> & _); simpl;
    rewrite !elem_of_cons; intros [H|[H|[H|H]]]; try discriminate; inversion H.
Qed.

(** C3: with the ledger rows [{from A, to B, call}], [{from A, to B, call}]
    and [{storage A, to B, delegate_call}] and a snapshot laying out A and
    B, the read returns exactly two edges, the normal [(A, B, call)] and
    the delegate [(A, B, delegate_call)], kept apart; neither carries a
    multiplicity: the two calls are collapsed without being counted. *)
Theorem aggregation_example_edges :
  fst (get_api_snapshot "s" example_ledger_world) =
  Ok (200, snapshot_data "s" 1
             [ {| node_id := 1; node_x := 0; node_y := 0; node_address := addr_A |};
               {| node_id := 2; node_x := 10; node_y := 0; node_address := addr_B |} ]
             [ [("from_addr", addr_A); ("to_addr", addr_B); ("action", "call")];
               [("storage_addr", addr_A); ("to_addr", addr_B); ("action", "delegate_call")] ]).
Proof. vm_compute. reflexivity. Qed.

(** ** Trace query and metadata enrichment *)

Lemma add_if_truthy_elem (v : option string) (l : list string) (a : string) :
  a ∈ add_if_truthy v l ↔ a ∈ l ∨ (v = Some a ∧ a ≠ "").
Proof.
  unfold add_if_truthy. destruct v as [b|]; simpl.
  - destruct (String.eqb b "") eqn:E; simpl.
    + apply String.eqb_eq in E. subst b. split; [auto|].
      intros [H|[H1 H2]]; [exact H|]. inversion H1; subst. destruct H2; reflexivity.
    + apply String.eqb_neq in E. destruct (decide (b ∈ l)) as [Hin|Hin].
      * split; [auto|]. intros [H|[H1 H2]]; [exact H|]. inversion H1; subst. exact Hin.
      * rewrite elem_of_app, list_elem_of_singleton. split.
        -- intros [H| ->]; auto.
        -- intros [H|[H1 H2]]; [auto|]. inversion H1; auto.
  - split; [auto|]. intros [H|[H _]]; [exact H|discriminate].
Qed.

Lemma unique_addresses_elem (traces : list trace) (a : string) :
  a ∈ unique_addresses traces ↔
  ∃ t, t ∈ traces ∧ a ≠ "" ∧
       (from_addr t = Some a ∨ to_addr t = Some a ∨ storage_addr t = Some a).
Proof.
  unfold unique_addresses.
  assert (G : ∀ acc, a ∈ fold_left add_trace_addresses traces acc ↔
            a ∈ acc ∨ ∃ t, t ∈ traces ∧ a ≠ "" ∧
              (from_addr t = Some a ∨ to_addr t = Some a ∨ storage_addr t = Some a)).
  { induction traces as [|t ts IH]; intros acc; simpl.
    - split; [auto|]. intros [H|(t & Ht & _)]; [exact H|inversion Ht].
    - rewrite IH. unfold add_trace_addresses. rewrite !add_if_truthy_elem. split.
      + intros [[[[H|[H1 H2]]|[H1 H2]]|[H1 H2]]|(t' & Ht' & Hne & H)].
        * left; exact H.
        * right; exists t; split; [left|auto].
        * right; exists t; split; [left|auto].
        * right; exists t; split; [left|auto].
        * right; exists t'; split; [right; exact Ht'|auto].
      + intros [H|(t' & Ht' & Hne & H)]; [auto 10|].
        apply elem_of_cons in Ht' as [-> |Ht'].
        * left. destruct H as [H|[H|H]]; auto 10.
        * right. eauto. }
  rewrite G. split; [intros [H|H]; [inversion H|exact H]|auto].
Qed.




Section TraceQuery.

Variable logic_server : logic_request → option (list trace).



(** C7: when the database cannot be reached, GET /api/trace still
    answers 200 with the traces the logic server returned, and with an
    empty [metadata] object. *)
Theorem trace_metadata_degrades (address tx block : option string) (w : world)
    (r : logic_request) (traces : list trace) :
  w_db_up w = false →
  (str_truthy address = true ∧ r = trace_address (default "" address)) ∨
  (str_truthy address = false ∧ str_truthy tx = false ∧
   str_truthy block = true ∧ r = trace_block (default "" block)) →
  logic_server r = Some traces →
  fst (get_api_trace logic_server address tx block w)
    = Ok (200, traces_metadata traces ∅).
Proof.
  intros Hup Hreq Hls. destruct w as [d up lg]. simpl in Hup. subst up.
  unfold get_api_trace, try_catch, bind, ret, axios_get_logic, pool_query. simpl.
  destruct Hreq as [[Ha ->]|(Ha & Htx & Hb & ->)].
  - rewrite Ha, Hls. simpl.
    destruct (0 <? length (unique_addresses traces))%nat; reflexivity.
  - rewrite Ha, Htx, Hb, Hls. simpl.
    destruct (0 <? length (unique_addresses traces))%nat; reflexivity.
Qed.

End TraceQuery.

(** ** Address validation *)

Lemma is_hex_char_spec (c : ascii) : is_hex_char c = bool_decide (c ∈ hex_digits).
Proof.
  destruct c as [[] [] [] [] [] [] [] []]; vm_compute; reflexivity.
Qed.

Lemma hex_run_spec (n : nat) (s : string) :
  hex_run n s = true ↔
  String.length s = n ∧ Forall (λ c, c ∈ hex_digits) (list_ascii_of_string s).
Proof.
  revert s. induction n as [|n IH]; intros [|c s]; simpl.
  - split; [intros _; split; [reflexivity|constructor]|reflexivity].
  - split; [discriminate|intros [H _]; discriminate].
  - split; [discriminate|intros [H _]; discriminate].
  - rewrite andb_true_iff, IH, is_hex_char_spec, bool_decide_eq_true. split.
    + intros (Hc & Hl & Hf). split; [congruence|constructor; assumption].
    + intros (Hl & Hf). inversion Hf; subst. split; [assumption|].
      split; [congruence|assumption].
Qed.

(** The regular expression of the source accepts exactly the well-formed
    addresses. *)
Lemma address_regex_spec (s : string) :
  address_regex s = true ↔ well_formed_address s.
Proof.
  unfold address_regex, well_formed_address. split.
  - destruct s as [|c0 s]; [discriminate|].
    destruct c0 as [[] [] [] [] [] [] [] []]; try discriminate.
    destruct s as [|c1 rest]; [discriminate|].
    destruct c1 as [[] [] [] [] [] [] [] []]; try discriminate.
    intros H. apply hex_run_spec in H. exists rest. split; [reflexivity|exact H].
  - intros (digits & -> & Hl & Hf). change (hex_run 40 digits = true).
    apply hex_run_spec. auto.
Qed.

Lemma address_regex_length (s : string) :
  address_regex s = true → String.length s = 42%nat.
Proof.
  intros H. apply address_regex_spec in H as (digits & -> & Hl & _).
  change (S (S (String.length digits)) = 42%nat). rewrite Hl. reflexivity.
Qed.

Lemma address_regex_truthy (s : string) :
  address_regex s = true → str_truthy (Some s) = true.
Proof. destruct s; [discriminate|reflexivity]. Qed.

Lemma is_hex_char_not_comma (c : ascii) :
  is_hex_char c = true → Ascii.eqb c "," = false.
Proof.
  destruct (Ascii.eqb c ",") eqn:E; [|reflexivity].
  apply Ascii.eqb_eq in E. subst c. vm_compute. discriminate.
Qed.

Lemma split_commas_aux_hex (n : nat) (s cur : string) :
  hex_run n s = true → length (split_commas_aux cur s) = 1%nat.
Proof.
  revert s cur. induction n as [|n IH]; intros [|c s] cur; simpl; try discriminate.
  - reflexivity.
  - intros H. apply andb_true_iff in H as [Hc Hs].
    rewrite (is_hex_char_not_comma _ Hc). apply IH. exact Hs.
Qed.

Lemma address_regex_one_address (s : string) :
  address_regex s = true → (length (split_commas s) =? 1)%nat = true.
Proof.
  unfold address_regex, split_commas.
  destruct s as [|c0 s]; [discriminate|].
  destruct c0 as [[] [] [] [] [] [] [] []]; try discriminate.
  destruct s as [|c1 rest]; [discriminate|].
  destruct c1 as [[] [] [] [] [] [] [] []]; try discriminate.
  intros H. simpl. rewrite (split_commas_aux_hex _ _ _ H). reflexivity.
Qed.

(** ** Security check *)

Lemma get_api_metadata_address_up (address : string) (w : world) :
  w_db_up w = true →
  address_regex address = true →
  get_api_metadata_address address w =
  (Ok match select_address_metadata address (db_tables (w_db w)) with
      | [] => (404, error "Address not found")
      | row :: _ => (200, address_metadata row)
      end,
   add_log [DbQuery (addressMetadataQuery address)] w).
Proof.
  intros Hup Hre. destruct w as [d up lg]. simpl in Hup. subst up.
  unfold get_api_metadata_address, try_catch, bind, pool_query, ret.
  rewrite (address_regex_one_address _ Hre). simpl.
  destruct (select_address_metadata address (db_tables d)); reflexivity.
Qed.

Lemma axios_get_public_metadata_up (address : string) (w : world) :
  w_db_up w = true →
  address_regex address = true →
  axios_get_public_metadata address w =
  (match select_address_metadata address (db_tables (w_db w)) with
   | [] => Throw (AxiosError "PUBLIC_SERVER_URL")
   | row :: _ => Ok (address_metadata row)
   end,
   add_log [Http (PublicServerGet address); DbQuery (addressMetadataQuery address)] w).
Proof.
  intros Hup Hre. unfold axios_get_public_metadata.
  rewrite get_api_metadata_address_up by (simpl; assumption).
  destruct w as [d up lg]. simpl.
  destruct (select_address_metadata address (db_tables d)); simpl;
    unfold add_log; simpl; rewrite <- app_assoc; reflexivity.
Qed.


Lemma scorer_calls_add_log (l : list io_event) (w : world) :
  scorer_calls (add_log l w) =
  (scorer_calls w + length (filter (λ e, is_scorer_call e = true) l))%nat.
Proof. unfold scorer_calls, add_log. simpl. rewrite filter_app, length_app. reflexivity. Qed.

Section SecurityCheck.

Variable security_server : body → option (option security_data).

(** A stored record is served without any further I/O. *)
Lemma security_check_hit (address : string) (w : world)
    (row : security_row) (rest : list security_row) :
  w_db_up w = true →
  address_regex address = true →
  select_security_check address (db_tables (w_db w)) = row :: rest →
  get_api_security_check security_server address w =
  (Ok (200, security_result (sc_address row) (sc_score row) (sc_reports row) true),
   add_log [DbQuery (checkExistingQuery address)] w).
Proof.
  intros Hup Hre Hsel. unfold get_api_security_check.
  rewrite (address_regex_truthy _ Hre), Hre. simpl.
  unfold try_catch, bind. rewrite pool_query_up by assumption. simpl.
  rewrite Hsel. destruct w; reflexivity.
Qed.

(** The outcome of a lookup that misses the cache, up to the answer of
    the security server. *)
Lemma security_check_miss (address : string) (w : world)
    (row : metadata_row) (rest : list metadata_row) :
  w_db_up w = true →
  address_regex address = true →
  select_security_check address (db_tables (w_db w)) = [] →
  select_address_metadata address (db_tables (w_db w)) = row :: rest →
  get_api_security_check security_server address w =
  let asked :=
    add_log [DbQuery (checkExistingQuery address); Http (PublicServerGet address);
             DbQuery (addressMetadataQuery address);
             Http (SecurityServerPost (address_metadata row))] w in
  let failure e :=
    (Ok (500, error_details "Error contacting security service" e), asked) in
  match security_server (address_metadata row) with
  | None => failure (AxiosError "SECURITY_SERVER_URL")
  | Some None => failure (JsError "Invalid response from security service")
  | Some (Some data) =>
    if negb (int_truthy (score data)) || negb (prop_truthy (reports data)) then
      failure (JsError "Invalid response from security service")
    else
      let q := insertQuery address (score data) (default JNull (reports data)) in
      match exec q (w_db w) with
      | inr (stored, d) =>
        (Ok (200, security_result (sc_address stored) (sc_score stored)
                    (sc_reports stored) false),
         set_db d (add_log [DbQuery q] asked))
      | inl e =>
        (Ok (500, error_details "Error contacting security service" (DbError e)),
         add_log [DbQuery q] asked)
      end
  end.
Proof.
  intros Hup Hre Hfresh Hmeta. unfold get_api_security_check.
  rewrite (address_regex_truthy _ Hre), Hre. simpl.
  unfold try_catch at 1. unfold bind at 1. rewrite pool_query_up by assumption.
  simpl. rewrite Hfresh.
  unfold try_catch, bind.
  rewrite axios_get_public_metadata_up by (simpl; assumption).
  simpl. rewrite Hmeta.
  unfold axios_post_security. simpl.
  destruct w as [d up lg]. simpl in *. subst up.
  unfold add_log, log_event, set_db. simpl.
  rewrite <- !app_assoc. simpl.
  destruct (security_server (address_metadata row)) as [[data|]|]; try reflexivity.
  destruct (negb (int_truthy (score data)) || negb (prop_truthy (reports data)));
    [reflexivity|].
  unfold pool_query, ret, log_event, set_db. simpl.
  destruct (insert_security_check address (score data) (default JNull (reports data)) d)
    as [e|[stored d']]; simpl; rewrite <- !app_assoc; reflexivity.
Qed.

(** An address the address store does not know is never sent to the
    security server: the server's own metadata route answers 404. *)
Lemma security_check_unknown_address (address : string) (w : world) :
  w_db_up w = true →
  address_regex address = true →
  select_security_check address (db_tables (w_db w)) = [] →
  select_address_metadata address (db_tables (w_db w)) = [] →
  get_api_security_check security_server address w =
  (Ok (500, error_details "Error contacting security service"
              (AxiosError "PUBLIC_SERVER_URL")),
   add_log [DbQuery (checkExistingQuery address); Http (PublicServerGet address);
            DbQuery (addressMetadataQuery address)] w).
Proof.
  intros Hup Hre Hfresh Hmeta. unfold get_api_security_check.
  rewrite (address_regex_truthy _ Hre), Hre. simpl.
  unfold try_catch at 1. unfold bind at 1. rewrite pool_query_up by assumption.
  simpl. rewrite Hfresh.
  unfold try_catch, bind.
  rewrite axios_get_public_metadata_up by (simpl; assumption).
  simpl. rewrite Hmeta.
  destruct w as [d up lg]. unfold add_log, log_event, set_db, ret. simpl.
  rewrite <- !app_assoc. reflexivity.
Qed.

Lemma security_check_db_down (address : string) (w : world) :
  w_db_up w = false →
  address_regex address = true →
  get_api_security_check security_server address w =
  (Ok (500, error_of (DbError ConnectionFailed)),
   add_log [DbQuery (checkExistingQuery address)] w).
Proof.
  intros Hup Hre. unfold get_api_security_check.
  rewrite (address_regex_truthy _ Hre), Hre. simpl.
  unfold try_catch, bind. rewrite pool_query_down by assumption.
  destruct w; reflexivity.
Qed.

(** Once the address has the right shape the handler goes on to the
    cache lookup, and answers 200 or 500. *)
Lemma security_check_after_validation (address : string) (w : world) :
  address_regex address = true →
  ∃ status b issued,
    get_api_security_check security_server address w
      = (Ok (status, b), set_db
           (w_db (snd (get_api_security_check security_server address w)))
           (add_log (DbQuery (checkExistingQuery address) :: issued) w)) ∧
    (status = 200 ∨ status = 500).
Proof.
  intros Hre. destruct (w_db_up w) eqn:Hup.
  - destruct (select_security_check address (db_tables (w_db w))) as [|hit hits] eqn:Hsel.
    + destruct (select_address_metadata address (db_tables (w_db w))) as [|row rows] eqn:Hm.
      * rewrite security_check_unknown_address by assumption.
        eexists _, _, _. split; [|right; reflexivity].
        destruct w; reflexivity.
      * rewrite security_check_miss with (row := row) (rest := rows) by assumption.
        cbv zeta.
        destruct (security_server (address_metadata row)) as [[data|]|];
          try (eexists _, _, _; split; [|right; reflexivity]; destruct w; reflexivity).
        destruct (negb (int_truthy (score data)) || negb (prop_truthy (reports data)));
          try (eexists _, _, _; split; [|right; reflexivity]; destruct w; reflexivity).
        destruct (exec _ (w_db w)) as [e|[stored d']].
        -- eexists _, _, _; split; [|right; reflexivity].
           destruct w. unfold add_log, set_db. simpl. rewrite <- app_assoc. reflexivity.
        -- eexists _, _, _; split; [|left; reflexivity].
           destruct w. unfold add_log, set_db. simpl. rewrite <- app_assoc. reflexivity.
    + rewrite security_check_hit with (row := hit) (rest := hits) by assumption.
      eexists 200, _, []. split; [|left; reflexivity]. destruct w; reflexivity.
  - rewrite security_check_db_down by assumption.
    eexists 500, _, []. split; [|right; reflexivity]. destruct w; reflexivity.
Qed.

(** C8: an address that is not [0x] followed by 40 hexadecimal
    characters is answered 400 "Invalid Ethereum address format" with
    the world untouched: no database query and no HTTP call is logged.
    A well-formed address passes the check: the handler goes on to query
    the cache (the first event it logs) and answers 200 or 500, never the
    validation error. *)
Theorem security_check_validates_first (address : string) (w : world) :
  (¬ well_formed_address address →
   get_api_security_check security_server address w
     = (Ok (400, error "Invalid Ethereum address format"), w)) ∧
  (well_formed_address address →
   address_regex address = true ∧
   ∃ status b w',
     get_api_security_check security_server address w = (Ok (status, b), w') ∧
     (status = 200 ∨ status = 500) ∧
     ∃ issued, w_log w' = w_log w ++ DbQuery (checkExistingQuery address) :: issued).
Proof.
  split.
  - intros Hbad. unfold get_api_security_check.
    destruct (address_regex address) eqn:Hre.
    + destruct Hbad. apply address_regex_spec. exact Hre.
    + rewrite orb_true_r. reflexivity.
  - intros Hwf. apply address_regex_spec in Hwf. split; [exact Hwf|].
    destruct (security_check_after_validation address w Hwf)
      as (status & b & issued & Hrun & Hst).
    eexists status, b, _. split; [exact Hrun|]. split; [exact Hst|].
    exists issued. reflexivity.
Qed.

End SecurityCheck.

Lemma int_truthy_val (s : Z) : s ≠ 0 → int_truthy (Val s) = true.
Proof. intros H. simpl. apply negb_true_iff, Z.eqb_neq. exact H. Qed.




(** C10: when the security server answers with [score] equal to 0, the
    handler answers 500 with the detail "Invalid response from security
    service" and leaves the database as it was, exactly as it does (same
    answer, same final world) when the [score] property is absent. *)
Theorem zero_score_is_invalid
    (security_server : body → option (option security_data))
    (address : string) (w : world) (row : metadata_row) (rest : list metadata_row)
    (data : security_data) :
  w_db_up w = true →
  address_regex address = true →
  select_security_check address (db_tables (w_db w)) = [] →
  select_address_metadata address (db_tables (w_db w)) = row :: rest →
  security_server (address_metadata row) = Some (Some data) →
  score data = Val 0 →
  ∃ w1,
    get_api_security_check security_server address w
      = (Ok (500, error_details "Error contacting security service"
                    (JsError "Invalid response from security service")), w1) ∧
    w_db w1 = w_db w ∧
    ∀ without_score : body → option (option security_data),
      without_score (address_metadata row)
        = Some (Some {| score := Undefined; reports := reports data |}) →
      get_api_security_check without_score address w
        = (Ok (500, error_details "Error contacting security service"
                      (JsError "Invalid response from security service")), w1).
Proof.
  intros Hup Hre Hfresh Hmeta Hss Hzero.
  rewrite security_check_miss with (row := row) (rest := rest) by assumption.
  cbv zeta. rewrite Hss, Hzero. simpl.
  eexists. split; [reflexivity|]. split; [destruct w; reflexivity|].
  intros ss' Hss'.
  rewrite security_check_miss with (row := row) (rest := rest) by assumption.
  cbv zeta. rewrite Hss'. reflexivity.
Qed.

Lemma zero_score_is_invalid_witness :
  ∃ w1,
    get_api_security_check zero_score_server addr_A known_address_world
      = (Ok (500, error_details "Error contacting security service"
                    (JsError "Invalid response from security service")), w1) ∧
    w_db w1 = w_db known_address_world.
Proof.
  destruct (zero_score_is_invalid zero_score_server addr_A known_address_world
              {| m_address := addr_A_row; m_protocol := None |} []
              {| score := Val 0; reports := Some sample_reports |})
    as (w1 & Hrun & Hdb & _); try (vm_compute; reflexivity).
  exists w1. split; [exact Hrun|exact Hdb].
Defined.

(** ** Saving a snapshot *)

Lemma int4_not_null_inr (column : string) (v : field Z) (n : Z) :
  int4_not_null column v = inr n ↔ v = Val n ∧ int4_ok n = true.
Proof.
  unfold int4_not_null. destruct v as [| |m]; try (split; [discriminate|intros [? _]; discriminate]).
  destruct (int4_ok m) eqn:E; split.
  - intros H. inversion H; subst. auto.
  - intros [H _]. inversion H; subst. reflexivity.
  - discriminate.
  - intros [H H']. inversion H; subst. congruence.
Qed.

Lemma varchar_not_null_inr (k : nat) (column : string) (v : field string) (s : string) :
  varchar_not_null k column v = inr s ↔ v = Val s ∧ (String.length s <=? k)%nat = true.
Proof.
  unfold varchar_not_null. destruct v as [| |m]; try (split; [discriminate|intros [? _]; discriminate]).
  destruct (String.length m <=? k)%nat eqn:E; split.
  - intros H. inversion H; subst. auto.
  - intros [H _]. inversion H; subst. reflexivity.
  - discriminate.
  - intros [H H']. inversion H; subst. congruence.
Qed.

Lemma insert_node_inr (vx vy : field Z) (va : field string) (id : Z) (d d' : database)
    (u : unit) :
  insert_node vx vy va id d = inr (u, d') →
  ∃ x' y' a',
    vx = Val x' ∧ vy = Val y' ∧ va = Val a' ∧
    node_accepted {| x := vx; y := vy; address := va |} = true ∧
    (snapshot_nodes_node_id_seq d ∉ n_node_id <$> snapshot_nodes (db_tables d)) ∧
    d' = {| db_tables :=
              set_snapshot_nodes
                (snapshot_nodes (db_tables d) ++
                 [ {| n_node_id := snapshot_nodes_node_id_seq d; n_x := x'; n_y := y';
                      n_address := a'; n_snapshot_id := id |} ])
                (db_tables d);
            db_tx := db_tx d;
            snapshots_id_seq := snapshots_id_seq d;
            snapshot_nodes_node_id_seq := snapshot_nodes_node_id_seq d + 1 |}.
Proof.
  unfold insert_node.
  destruct (int4_not_null "x" vx) as [e|x'] eqn:Ex; [discriminate|].
  destruct (int4_not_null "y" vy) as [e|y'] eqn:Ey; [discriminate|].
  destruct (varchar_not_null 42 "address" va) as [e|a'] eqn:Ea; [discriminate|].
  apply int4_not_null_inr in Ex as [-> Ex]. apply int4_not_null_inr in Ey as [-> Ey].
  apply varchar_not_null_inr in Ea as [-> Ea].
  destruct (decide _) as [Hin|Hin]; [discriminate|].
  intros H. inversion H; subst. exists x', y', a'.
  unfold node_accepted. simpl. rewrite Ex, Ey, Ea. repeat split; auto.
Qed.


Lemma set_snapshot_nodes_app (l rows1 rows2 : list node_row) (t : tables) :
  set_snapshot_nodes ((l ++ rows1) ++ rows2) (set_snapshot_nodes (l ++ rows1) t) =
  set_snapshot_nodes (l ++ rows1 ++ rows2) t.
Proof. unfold set_snapshot_nodes. simpl. rewrite <- app_assoc. reflexivity. Qed.

(** The node loop: what each of its three outcomes leaves behind. *)
Lemma insert_all_nodes_run (id : Z) (nodes : list node) (w : world)
    (o : outcome (option response)) (w' : world) :
  w_db_up w = true →
  insert_all_nodes id nodes w = (o, w') →
  w_db_up w' = true ∧
  snapshots_id_seq (w_db w') = snapshots_id_seq (w_db w) ∧
  snapshot_nodes_node_id_seq (w_db w) ≤ snapshot_nodes_node_id_seq (w_db w') ∧
  match o with
  | Ok None =>
    db_tx (w_db w') = db_tx (w_db w) ∧
    ∃ rows,
      db_tables (w_db w') =
        set_snapshot_nodes (snapshot_nodes (db_tables (w_db w)) ++ rows)
                           (db_tables (w_db w)) ∧
      node_of_row <$> rows = nodes ∧
      Forall (λ r, n_snapshot_id r = id ∧
                   snapshot_nodes_node_id_seq (w_db w) ≤ n_node_id r
                     < snapshot_nodes_node_id_seq (w_db w')) rows
  | Ok (Some r) =>
    r = (400, error "Each node must have x, y, and address properties") ∧
    Exists (λ n, node_incomplete n = true) nodes ∧
    ∀ t0, db_tx (w_db w) = Some t0 →
          db_tables (w_db w') = t0 ∧ db_tx (w_db w') = None
  | Throw e => db_tx (w_db w') = db_tx (w_db w)
  end.
Proof.
  revert w. induction nodes as [|n rest IH]; intros w Hup Hrun.
  - simpl in Hrun. unfold ret in Hrun. inversion Hrun; subst.
    repeat split; try reflexivity; try lia; try assumption.
    exists []. split; [|split; [reflexivity|constructor]].
    unfold set_snapshot_nodes. rewrite app_nil_r. destruct (db_tables (w_db w')); reflexivity.
  - simpl in Hrun. fold (node_incomplete n) in Hrun.
    destruct (node_incomplete n) eqn:Einc.
    + unfold bind in Hrun. rewrite pool_query_up in Hrun by assumption.
      simpl in Hrun. unfold ret in Hrun. inversion Hrun; subst; clear Hrun.
      destruct w as [d up lg]. simpl in *.
      split; [assumption|].
      split; [unfold rollback_tx; destruct (db_tx d); reflexivity|].
      split; [unfold rollback_tx; destruct (db_tx d); simpl; lia|].
      split; [reflexivity|]. split; [left; exact Einc|].
      intros t0 H. unfold rollback_tx. rewrite H. simpl. auto.
    + unfold bind in Hrun. rewrite pool_query_up in Hrun by assumption.
      simpl in Hrun.
      destruct (insert_node (x n) (y n) (address n) id (w_db w)) as [e|[u d1]] eqn:Eins.
      * inversion Hrun; subst; clear Hrun. destruct w; simpl in *.
        repeat split; try reflexivity; try lia; assumption.
      * apply insert_node_inr in Eins
          as (x' & y' & a' & Hx & Hy & Ha & Hacc & Hfresh & ->).
        apply IH in Hrun; [|destruct w; exact Hup].
        destruct w as [d up lg]. simpl in *.
        destruct Hrun as (Hup' & Hseq & Hnseq & Ho).
        split; [exact Hup'|]. split; [exact Hseq|]. split; [lia|].
        destruct o as [[r|]|e].
        -- destruct Ho as (-> & Hex & Hrb). split; [reflexivity|].
           split; [right; exact Hex|exact Hrb].
        -- destruct Ho as (Htx & rows & Htab & Hrows & Hall).
           split; [exact Htx|].
           exists ({| n_node_id := snapshot_nodes_node_id_seq d; n_x := x'; n_y := y';
                      n_address := a'; n_snapshot_id := id |} :: rows).
           split; [|split].
           ++ rewrite Htab.
              change (?l ++ ?r :: rows) with (l ++ [r] ++ rows).
              apply set_snapshot_nodes_app.
           ++ rewrite fmap_cons, Hrows. unfold node_of_row. simpl.
              destruct n as [nx ny na]. simpl in *. subst. reflexivity.
           ++ constructor; [simpl; lia|].
              eapply Forall_impl; [exact Hall|]. simpl. intros r [H1 H2]. split; [exact H1|lia].
        -- exact Ho.
Qed.

Lemma begin_tx_tables (d : database) : db_tables (begin_tx d) = db_tables d.
Proof. unfold begin_tx. destruct (db_tx d); reflexivity. Qed.

(** The save route on a reachable database, step by step. *)
Lemma post_api_addresses_snapshot_up (name : string) (nodes : list node) (w : world) :
  w_db_up w = true →
  str_truthy (Some name) = true →
  post_api_addresses_snapshot (Some name) (Some nodes) w =
  let d2 := save_prepared name (w_db w) in
  let w2 := add_log (save_prepare_queries name (w_db w)) w in
  match insert_snapshot name d2 with
  | inl e =>
    (Ok (500, error_of (DbError e)),
     set_db (rollback_tx d2) (add_log [DbQuery ROLLBACK] w2))
  | inr (snapshotId, d3) =>
    match insert_all_nodes snapshotId nodes (set_db d3 w2) with
    | (Ok (Some r), w3) => (Ok r, w3)
    | (Ok None, w3) =>
      (Ok (200, snapshot_saved "Snapshot created/updated successfully" snapshotId),
       set_db (commit_tx (w_db w3)) (add_log [DbQuery COMMIT] w3))
    | (Throw e, w3) =>
      (Ok (500, error_of e), set_db (rollback_tx (w_db w3)) (add_log [DbQuery ROLLBACK] w3))
    end
  end.
Proof.
  intros Hup Hname. unfold post_api_addresses_snapshot. rewrite Hname.
  destruct w as [d up lg]. simpl in Hup. subst up.
  unfold save_prepared, save_prepare_queries. cbv zeta.
  unfold try_catch. unfold bind at 1. unfold pool_query at 1. simpl.
  unfold bind at 1. unfold pool_query at 1. simpl.
  rewrite begin_tx_tables.
  destruct (select_snapshot_ids name (db_tables d)) as [|old olds] eqn:Esel.
  - unfold bind at 1. unfold ret at 1.
    unfold bind at 1. unfold pool_query at 1. simpl.
    destruct (insert_snapshot name (begin_tx d)) as [e|[sid d3]] eqn:Eins.
    + unfold bind, pool_query, ret, add_log, log_event, set_db. simpl.
      rewrite <- !app_assoc. reflexivity.
    + unfold bind at 1. unfold add_log, log_event, set_db. simpl.
      rewrite <- !app_assoc. simpl.
      destruct (insert_all_nodes sid nodes _) as [[[r|]|e] w3] eqn:Erun.
      * reflexivity.
      * apply insert_all_nodes_run in Erun as (Hup3 & _); [|reflexivity].
        destruct w3 as [d' up' lg']. simpl in Hup3. subst up'.
        unfold bind, ret, pool_query, log_event, set_db, add_log. reflexivity.
      * apply insert_all_nodes_run in Erun as (Hup3 & _); [|reflexivity].
        destruct w3 as [d' up' lg']. simpl in Hup3. subst up'.
        unfold bind, ret, pool_query, log_event, set_db, add_log. reflexivity.
  - unfold bind at 1. unfold bind at 1. unfold pool_query at 1. simpl.
    unfold pool_query at 1. simpl.
    unfold bind at 1. unfold pool_query at 1. simpl.
    unfold delete_existing.
    match goal with
    | |- context [insert_snapshot name ?d2] =>
      change d2 with
        (set_tables (delete_snapshot old (delete_nodes old (db_tables (begin_tx d))))
                    (begin_tx d))
    end.
    destruct (insert_snapshot name _) as [e|[sid d3]] eqn:Eins.
    + unfold bind, pool_query, ret, add_log, log_event, set_db. simpl.
      rewrite <- !app_assoc. reflexivity.
    + unfold bind at 1. unfold add_log, log_event, set_db. simpl.
      rewrite <- !app_assoc. simpl.
      destruct (insert_all_nodes sid nodes _) as [[[r|]|e] w3] eqn:Erun.
      * reflexivity.
      * apply insert_all_nodes_run in Erun as (Hup3 & _); [|reflexivity].
        destruct w3 as [d' up' lg']. simpl in Hup3. subst up'.
        unfold bind, ret, pool_query, log_event, set_db, add_log. reflexivity.
      * apply insert_all_nodes_run in Erun as (Hup3 & _); [|reflexivity].
        destruct w3 as [d' up' lg']. simpl in Hup3. subst up'.
        unfold bind, ret, pool_query, log_event, set_db, add_log. reflexivity.
Qed.

Lemma filter_ext_elem {A} (P Q : A → Prop) `{∀ x, Decision (P x)} `{∀ x, Decision (Q x)}
    (l : list A) :
  (∀ x, x ∈ l → (P x ↔ Q x)) → filter P l = filter Q l.
Proof.
  induction l as [|a l IH]; intros Hext; [reflexivity|].
  rewrite !filter_cons.
  rewrite IH by (intros x Hx; apply Hext; right; exact Hx).
  destruct (decide (P a)) as [HP|HP], (decide (Q a)) as [HQ|HQ]; try reflexivity.
  - destruct HQ. apply (Hext a); [left|exact HP].
  - destruct HP. apply (Hext a); [left|exact HQ].
Qed.


Lemma filter_none {A} (P : A → Prop) `{∀ x, Decision (P x)} (l : list A) :
  (∀ x, x ∈ l → ¬ P x) → filter P l = [].
Proof.
  induction l as [|a l IH]; intros Hall; [reflexivity|].
  rewrite filter_cons_False by (apply Hall; left).
  apply IH. intros x Hx. apply Hall. right. exact Hx.
Qed.



Lemma insert_snapshot_inr (name : string) (d d3 : database) (sid : Z) :
  insert_snapshot name d = inr (sid, d3) →
  sid = snapshots_id_seq d ∧
  (String.length name <=? 255)%nat = true ∧
  (sid ∉ s_id <$> snapshots (db_tables d)) ∧
  d3 = {| db_tables :=
            set_snapshots (snapshots (db_tables d) ++ [ {| s_id := sid; s_name := name |} ])
                          (db_tables d);
          db_tx := db_tx d;
          snapshots_id_seq := sid + 1;
          snapshot_nodes_node_id_seq := snapshot_nodes_node_id_seq d |}.
Proof.
  unfold insert_snapshot, varchar_not_null.
  destruct (String.length name <=? 255)%nat; [|discriminate].
  destruct (decide _) as [Hin|Hin]; [discriminate|].
  intros H. inversion H; subst. auto.
Qed.








Lemma save_prepared_tx (name : string) (d : database) :
  db_tx d = None → db_tx (save_prepared name d) = Some (db_tables d).
Proof.
  intros Htx. unfold save_prepared, delete_existing, begin_tx. rewrite Htx.
  destruct (select_snapshot_ids name (db_tables d)); reflexivity.
Qed.




(** ** The invariant is kept by the save route *)



(** ** Instances *)




Lemma read_snapshot_edges_witness :
  NoDup [ [("from_addr", addr_A); ("to_addr", addr_B); ("action", "call")];
          [("storage_addr", addr_A); ("to_addr", addr_B); ("action", "delegate_call")] ].
Proof.
  refine (proj1 (read_snapshot_edges "s" example_ledger_world
                   (snd (get_api_snapshot "s" example_ledger_world)) "s" 1
                   [ {| node_id := 1; node_x := 0; node_y := 0; node_address := addr_A |};
                     {| node_id := 2; node_x := 10; node_y := 0; node_address := addr_B |} ]
                   _ _ _ _)).
  - reflexivity.
  - vm_compute. reflexivity.
  - discriminate.
Defined.

Lemma read_snapshot_not_found_vs_empty_witness :
  fst (get_api_snapshot "s" empty_snapshot_world) = Ok (404, error "Snapshot not found") ∧
  ∃ id issued,
    get_api_snapshot "blank" empty_snapshot_world
      = (Ok (200, snapshot_data "blank" id [] []), add_log issued empty_snapshot_world) ∧
    issued = [DbQuery (snapshotQuery "blank"); DbQuery (nodesQuery id)] ∧
    Forall (λ e, is_trace_query e = false) issued.
Proof.
  split.
  - apply (proj1 (read_snapshot_not_found_vs_empty "s" empty_snapshot_world eq_refl)).
    intros s Hs. apply list_elem_of_singleton in Hs. subst s. discriminate.
  - apply (proj2 (read_snapshot_not_found_vs_empty "blank" empty_snapshot_world eq_refl)).
    + eexists. split; [left|reflexivity].
    + intros s n _ _ Hn. inversion Hn.
Defined.


Lemma trace_metadata_degrades_witness :
  fst (get_api_trace sample_logic_server (Some addr_A) None None offline_world)
    = Ok (200, traces_metadata [sample_trace] ∅).
Proof.
  apply (trace_metadata_degrades sample_logic_server (Some addr_A) None None offline_world
           (trace_address addr_A) [sample_trace]).
  - reflexivity.
  - left. split; reflexivity.
  - reflexivity.
Defined.

Lemma security_check_validates_first_witness :
  get_api_security_check sample_security_server "0xZZZ" known_address_world
    = (Ok (400, error "Invalid Ethereum address format"), known_address_world) ∧
  address_regex addr_A = true.
Proof.
  split.
  - apply (proj1 (security_check_validates_first sample_security_server "0xZZZ"
                    known_address_world)).
    intros Hwf. apply address_regex_spec in Hwf. discriminate.
  - apply (proj2 (security_check_validates_first sample_security_server addr_A
                    known_address_world)).
    apply address_regex_spec. reflexivity.
Defined.

(** * Further properties of the routes *)

(** ** GET /api/trace *)

(** The route, path by path. *)
Lemma get_api_trace_run (logic_server : logic_request → option (list trace))
    (address tx block : option string) (w : world) :
  get_api_trace logic_server address tx block w =
  match trace_target address tx block with
  | inl early => (Ok early, w)
  | inr (request, not_found) =>
    let w1 := add_log [Http (LogicServerGet request)] w in
    match logic_server request with
    | None => (Ok (404, error not_found), w1)
    | Some traces =>
      let addressList := unique_addresses traces in
      if (0 <? length addressList)%nat then
        (Ok (200, traces_metadata traces
                    (if w_db_up w then
                       fill_missing addressList
                         (metadata_of_rows
                            (select_addresses addressList (db_tables (w_db w))) ∅)
                     else ∅)),
         add_log [DbQuery (addressQuery addressList)] w1)
      else (Ok (200, traces_metadata traces ∅), w1)
    end
  end.
Proof.
  destruct w as [d up lg].
  unfold get_api_trace, trace_target, try_catch, bind, ret, axios_get_logic, pool_query,
    add_log, log_event, set_db.
  simpl.
  destruct (str_truthy address); simpl.
  - destruct (logic_server _) as [traces|]; simpl; [|reflexivity].
    destruct (0 <? length (unique_addresses traces))%nat; simpl; [|reflexivity].
    destruct up; simpl; rewrite <- app_assoc; reflexivity.
  - destruct (str_truthy tx); simpl; [reflexivity|].
    destruct (str_truthy block); simpl; [|reflexivity].
    destruct (logic_server _) as [traces|]; simpl; [|reflexivity].
    destruct (0 <? length (unique_addresses traces))%nat; simpl; [|reflexivity].
    destruct up; simpl; rewrite <- app_assoc; reflexivity.
Qed.

(** X1: without [address], a request that gives [tx], or that gives
    neither [tx] nor [block], is answered at once (501 for [tx], which
    shadows [block]; 400 when nothing is given) and the world is left
    untouched: no upstream request, no database query. *)
Theorem trace_without_target_does_no_io
    (logic_server : logic_request → option (list trace))
    (address tx block : option string) (w : world) :
  str_truthy address = false →
  str_truthy tx = true ∨ str_truthy block = false →
  get_api_trace logic_server address tx block w =
  (Ok (if str_truthy tx
       then (501, error_message "Transaction lookup not implemented"
                    "The transaction lookup feature is not currently supported")
       else (400, error "Provide address, tx, or block in query params")),
   w).
Proof.
  intros Ha Hor. rewrite get_api_trace_run. unfold trace_target. rewrite Ha.
  destruct (str_truthy tx); [reflexivity|].
  destruct Hor as [H|H]; [discriminate|]. rewrite H. reflexivity.
Qed.

Lemma trace_without_target_does_no_io_witness :
  get_api_trace sample_logic_server None (Some "0xabc") (Some "17") known_address_world =
  (Ok (501, error_message "Transaction lookup not implemented"
              "The transaction lookup feature is not currently supported"),
   known_address_world).
Proof.
  apply (trace_without_target_does_no_io sample_logic_server None (Some "0xabc") (Some "17")
           known_address_world).
  - reflexivity.
  - left. reflexivity.
Defined.

(** X2: when [address] is given, [tx] and [block] are ignored: the route
    does exactly what it does for the address alone. *)
Theorem trace_address_takes_precedence
    (logic_server : logic_request → option (list trace))
    (address tx block : option string) (w : world) :
  str_truthy address = true →
  get_api_trace logic_server address tx block w =
  get_api_trace logic_server address None None w.
Proof.
  intros Ha. rewrite !get_api_trace_run. unfold trace_target. rewrite Ha. reflexivity.
Qed.

Lemma trace_address_takes_precedence_witness :
  get_api_trace sample_logic_server (Some addr_A) (Some "0xabc") (Some "17") known_address_world =
  get_api_trace sample_logic_server (Some addr_A) None None known_address_world.
Proof.
  apply (trace_address_takes_precedence sample_logic_server (Some addr_A) (Some "0xabc")
           (Some "17") known_address_world).
  reflexivity.
Defined.

(** X3: when the request to the logic server fails, the answer is 404
    ("Address not found" for an address, "Block not found" for a block),
    whatever the cause of the failure; the only I/O is that one request,
    and no database query follows. *)
Theorem trace_upstream_failure_is_not_found
    (logic_server : logic_request → option (list trace))
    (address tx block : option string) (w : world) (request : logic_request) :
  (str_truthy address = true ∧ request = trace_address (default "" address)) ∨
  (str_truthy address = false ∧ str_truthy tx = false ∧
   str_truthy block = true ∧ request = trace_block (default "" block)) →
  logic_server request = None →
  get_api_trace logic_server address tx block w =
  (Ok (404, error (if str_truthy address then "Address not found" else "Block not found")),
   add_log [Http (LogicServerGet request)] w).
Proof.
  intros Hreq Hls. rewrite get_api_trace_run. unfold trace_target.
  destruct Hreq as [[Ha ->]|(Ha & Htx & Hb & ->)].
  - rewrite Ha. cbv zeta. rewrite Hls. reflexivity.
  - rewrite Ha, Htx, Hb. cbv zeta. rewrite Hls. reflexivity.
Qed.

Lemma trace_upstream_failure_is_not_found_witness :
  get_api_trace sample_logic_server None None (Some "17") known_address_world =
  (Ok (404, error "Block not found"),
   add_log [Http (LogicServerGet (trace_block "17"))] known_address_world).
Proof.
  apply (trace_upstream_failure_is_not_found sample_logic_server None None (Some "17")
           known_address_world (trace_block "17")).
  - right. repeat split; reflexivity.
  - reflexivity.
Defined.







Lemma add_log_add_log (l1 l2 : list io_event) (w : world) :
  add_log l2 (add_log l1 w) = add_log (l1 ++ l2) w.
Proof. unfold add_log. simpl. rewrite app_assoc. reflexivity. Qed.

Lemma add_log_nil (w : world) : add_log [] w = w.
Proof. destruct w. unfold add_log. simpl. rewrite app_nil_r. reflexivity. Qed.

(** X6: GET /api/trace answers every request; on the way it sends at
    most one request to the logic server and at most one database query
    (none when the traces mention no address), and it leaves the database
    as it was. *)
Theorem trace_route_effects
    (logic_server : logic_request → option (list trace))
    (address tx block : option string) (w : world) :
  ∃ r issued,
    get_api_trace logic_server address tx block w = (Ok r, add_log issued w) ∧
    (length (filter (λ e, is_db_query e = false) issued) ≤ 1)%nat ∧
    (length (filter (λ e, is_db_query e = true) issued) ≤ 1)%nat ∧
    (∀ traces metadata,
       r = (200, traces_metadata traces metadata) →
       unique_addresses traces = [] →
       filter (λ e, is_db_query e = true) issued = []).
Proof.
  rewrite get_api_trace_run.
  pose proof (add_log_nil w) as Hnil.
  destruct (trace_target address tx block) as [early|[request msg]].
  - exists early, []. rewrite Hnil.
    split; [reflexivity|]. split; [simpl; lia|]. split; [simpl; lia|].
    intros; reflexivity.
  - cbv zeta. destruct (logic_server request) as [traces|].
    + destruct (0 <? length (unique_addresses traces))%nat eqn:Elen.
      * eexists _, [Http (LogicServerGet request);
                    DbQuery (addressQuery (unique_addresses traces))].
        split; [|split; [|split]].
        -- rewrite add_log_add_log. reflexivity.
        -- vm_compute. lia.
        -- vm_compute. lia.
        -- intros traces' metadata' Heq Hempty. inversion Heq; subst.
           rewrite Hempty in Elen. discriminate.
      * eexists _, [Http (LogicServerGet request)].
        split; [reflexivity|]. split; [vm_compute; lia|]. split; [vm_compute; lia|].
        intros; reflexivity.
    + eexists _, [Http (LogicServerGet request)].
      split; [reflexivity|]. split; [vm_compute; lia|]. split; [vm_compute; lia|].
      intros; reflexivity.
Qed.

(** ** GET /api/metadata/address/:address *)

Lemma string_app_cons (c : ascii) (s t : string) : String c s +:+ t = String c (s +:+ t).
Proof. reflexivity. Qed.

Lemma string_app_nil_l (s : string) : "" +:+ s = s.
Proof. reflexivity. Qed.

Lemma string_app_nil_r (s : string) : s +:+ "" = s.
Proof.
  induction s as [|c s IH]; [reflexivity|]. rewrite string_app_cons, IH. reflexivity.
Qed.

Lemma string_app_assoc (s1 s2 s3 : string) : (s1 +:+ s2) +:+ s3 = s1 +:+ s2 +:+ s3.
Proof.
  induction s1 as [|c s1 IH]; [reflexivity|].
  rewrite !string_app_cons, IH. reflexivity.
Qed.

Lemma list_ascii_of_string_app (a b : string) :
  list_ascii_of_string (a +:+ b) = list_ascii_of_string a ++ list_ascii_of_string b.
Proof.
  induction a as [|c a IH]; [reflexivity|].
  rewrite string_app_cons. simpl. rewrite IH. reflexivity.
Qed.

Lemma split_commas_aux_not_nil (cur s : string) : split_commas_aux cur s ≠ [].
Proof.
  revert cur. induction s as [|c s IH]; intros cur; simpl; [discriminate|].
  destruct (Ascii.eqb c ","); [discriminate|apply IH].
Qed.

Lemma split_commas_aux_concat (cur s : string) :
  String.concat "," (split_commas_aux cur s) = cur +:+ s.
Proof.
  revert cur. induction s as [|c s IH]; intros cur.
  - simpl. rewrite string_app_nil_r. reflexivity.
  - change (split_commas_aux cur (String c s))
      with (if Ascii.eqb c "," then cur :: split_commas_aux "" s
            else split_commas_aux (cur +:+ String c "") s).
    destruct (Ascii.eqb c ",") eqn:E.
    + apply Ascii.eqb_eq in E. subst c.
      pose proof (split_commas_aux_not_nil "" s) as Hnn.
      specialize (IH ""). rewrite string_app_nil_l in IH.
      destruct (split_commas_aux "" s) as [|p ps]; [destruct Hnn; reflexivity|].
      change (String.concat "," (cur :: p :: ps))
        with (cur +:+ "," +:+ String.concat "," (p :: ps)).
      rewrite IH. reflexivity.
    + rewrite IH. rewrite string_app_assoc. reflexivity.
Qed.

Lemma split_commas_aux_pieces (cur s : string) :
  no_comma cur →
  Forall (λ piece, no_comma piece) (split_commas_aux cur s).
Proof.
  unfold no_comma.
  revert cur. induction s as [|c s IH]; intros cur Hcur; simpl.
  - constructor; [exact Hcur|constructor].
  - destruct (Ascii.eqb c ",") eqn:E.
    + constructor; [exact Hcur|]. apply IH. simpl. intros H. inversion H.
    + apply IH. intros H. apply Ascii.eqb_neq in E.
      rewrite list_ascii_of_string_app in H. apply elem_of_app in H as [H|H]; [exact (Hcur H)|].
      simpl in H. apply list_elem_of_singleton in H. congruence.
Qed.

Lemma split_commas_aux_length (cur s : string) :
  length (split_commas_aux cur s) = 1%nat ↔ no_comma s.
Proof.
  unfold no_comma.
  revert cur. induction s as [|c s IH]; intros cur; simpl.
  - split; [intros _ H; inversion H|reflexivity].
  - destruct (Ascii.eqb c ",") eqn:E.
    + apply Ascii.eqb_eq in E. subst c. split.
      * simpl. intros H. exfalso.
        destruct (split_commas_aux "" s) eqn:Es;
          [exact (split_commas_aux_not_nil "" s Es)|discriminate].
      * intros H. destruct H. left.
    + apply Ascii.eqb_neq in E. rewrite IH. split.
      * intros H H'. apply elem_of_cons in H' as [H'|H']; [congruence|auto].
      * intros H H'. apply H. right. exact H'.
Qed.

(** X7: splitting the path parameter at commas loses nothing: joining
    the pieces with commas gives the parameter back, and no piece contains
    a comma; there is a single piece exactly when the parameter holds no
    comma. *)
Theorem split_commas_round_trip (s : string) :
  String.concat "," (split_commas s) = s ∧
  Forall (λ piece, no_comma piece) (split_commas s) ∧
  (length (split_commas s) = 1%nat ↔ no_comma s).
Proof.
  unfold split_commas. split; [|split].
  - apply (split_commas_aux_concat "" s).
  - apply split_commas_aux_pieces. intros H. inversion H.
  - apply split_commas_aux_length.
Qed.

(** The metadata route, path by path. *)
Lemma get_api_metadata_address_run (address : string) (w : world) :
  get_api_metadata_address address w =
  if (length (split_commas address) =? 1)%nat then
    (Ok (if w_db_up w then
           match select_address_metadata address (db_tables (w_db w)) with
           | [] => (404, error "Address not found")
           | row :: _ => (200, address_metadata row)
           end
         else (500, error_of (DbError ConnectionFailed))),
     add_log [DbQuery (addressMetadataQuery address)] w)
  else
    (Ok (if w_db_up w then
           (200, metadata_map
                   (fold_left (λ metadataMap row, <[a_address (m_address row) := row]> metadataMap)
                      (select_addresses_metadata (split_commas address) (db_tables (w_db w))) ∅))
         else (500, error_of (DbError ConnectionFailed))),
     add_log [DbQuery (addressesMetadataQuery (split_commas address))] w).
Proof.
  destruct w as [d up lg].
  unfold get_api_metadata_address, try_catch, bind, pool_query, ret, add_log, log_event, set_db.
  simpl.
  destruct (length (split_commas address) =? 1)%nat; destruct up; simpl; try reflexivity.
  destruct (select_address_metadata address (db_tables d)); reflexivity.
Qed.

Lemma left_join_protocol_elem (t : tables) (a : address_row) (row : metadata_row) :
  row ∈ left_join_protocol t a →
  m_address row = a ∧
  match m_protocol row with
  | Some p => p ∈ protocols t ∧ a_protocol_id a = Some (p_protocol_id p)
  | None => ∀ p, p ∈ protocols t → a_protocol_id a ≠ Some (p_protocol_id p)
  end.
Proof.
  unfold left_join_protocol.
  destruct (filter (λ p, a_protocol_id a = Some (p_protocol_id p)) (protocols t))
    as [|p0 ps] eqn:E.
  - intros H. apply list_elem_of_singleton in H. subst row. simpl.
    split; [reflexivity|]. intros p Hp Heq.
    exact (filter_nil_not_elem_of _ _ p E Heq Hp).
  - intros H. apply list_elem_of_fmap in H as (p & -> & Hp). simpl.
    split; [reflexivity|]. rewrite <- E in Hp.
    apply list_elem_of_filter in Hp as [Heq Hp]. auto.
Qed.

Lemma left_join_protocol_not_nil (t : tables) (a : address_row) :
  left_join_protocol t a ≠ [].
Proof.
  unfold left_join_protocol.
  destruct (filter _ (protocols t)); discriminate.
Qed.

(** X8: for a path parameter without comma, on a reachable database, the
    metadata route answers 404 exactly when no row of [addresses] has that
    address; otherwise it answers 200 with a row of that address joined
    with its protocol: the protocol its [protocol_id] designates, or none
    when no protocol has that id. *)
Theorem metadata_single_address (address : string) (w : world) :
  w_db_up w = true →
  no_comma address →
  ((address ∉ a_address <$> addresses (db_tables (w_db w))) →
   fst (get_api_metadata_address address w) = Ok (404, error "Address not found")) ∧
  (address ∈ a_address <$> addresses (db_tables (w_db w)) →
   ∃ row,
     fst (get_api_metadata_address address w) = Ok (200, address_metadata row) ∧
     m_address row ∈ addresses (db_tables (w_db w)) ∧
     a_address (m_address row) = address ∧
     match m_protocol row with
     | Some p => p ∈ protocols (db_tables (w_db w)) ∧
                 a_protocol_id (m_address row) = Some (p_protocol_id p)
     | None => ∀ p, p ∈ protocols (db_tables (w_db w)) →
                    a_protocol_id (m_address row) ≠ Some (p_protocol_id p)
     end).
Proof.
  intros Hup Hno. rewrite get_api_metadata_address_run, Hup.
  assert (Hone : (length (split_commas address) =? 1)%nat = true).
  { apply Nat.eqb_eq. apply (split_commas_aux_length "" address). exact Hno. }
  rewrite Hone. simpl fst. unfold select_address_metadata. split.
  - intros Habs.
    rewrite filter_none; [reflexivity|].
    intros a Ha Heq. apply Habs. rewrite <- Heq. apply list_elem_of_fmap_2. exact Ha.
  - intros Hin. apply list_elem_of_fmap in Hin as (a & Heq & Ha).
    destruct (filter (λ a, a_address a = address) (addresses (db_tables (w_db w))) ≫=
              left_join_protocol (db_tables (w_db w))) as [|row rows] eqn:E.
    + exfalso.
      assert (Hin : a ∈ filter (λ a, a_address a = address) (addresses (db_tables (w_db w))))
        by (apply list_elem_of_filter; auto).
      destruct (left_join_protocol (db_tables (w_db w)) a) as [|r rs] eqn:Ej;
        [exact (left_join_protocol_not_nil _ _ Ej)|].
      assert (Hr : r ∈ filter (λ a, a_address a = address) (addresses (db_tables (w_db w)))
                     ≫= left_join_protocol (db_tables (w_db w))).
      { apply list_elem_of_bind. exists a. split; [rewrite Ej; left|exact Hin]. }
      rewrite E in Hr. inversion Hr.
    + exists row. split; [reflexivity|].
      assert (Hr : row ∈ filter (λ a, a_address a = address) (addresses (db_tables (w_db w)))
                     ≫= left_join_protocol (db_tables (w_db w))) by (rewrite E; left).
      apply list_elem_of_bind in Hr as (a' & Hj & Ha').
      apply list_elem_of_filter in Ha' as [Heq' Ha'].
      apply left_join_protocol_elem in Hj as [Hm Hp]. rewrite Hm.
      split; [exact Ha'|]. split; [exact Heq'|exact Hp].
Qed.

Lemma metadata_single_address_witness :
  fst (get_api_metadata_address addr_B known_address_world)
    = Ok (404, error "Address not found") ∧
  ∃ row, fst (get_api_metadata_address addr_A known_address_world)
           = Ok (200, address_metadata row) ∧
         a_address (m_address row) = addr_A.
Proof.
  split.
  - apply (proj1 (metadata_single_address addr_B known_address_world eq_refl
                    ltac:(unfold no_comma; simpl; intros H; repeat (apply elem_of_cons in H as [H|H]; [discriminate|]); inversion H))).
    simpl. intros H. apply list_elem_of_singleton in H. discriminate.
  - destruct (proj2 (metadata_single_address addr_A known_address_world eq_refl
                       ltac:(unfold no_comma; simpl; intros H; repeat (apply elem_of_cons in H as [H|H]; [discriminate|]); inversion H)))
      as (row & Hrun & _ & Haddr & _).
    + simpl. left.
    + exists row. auto.
Defined.





(** ** POST /api/addresses/snapshot *)

Lemma post_api_addresses_snapshot_malformed
    (snapshot_name : option string) (snapshot_nodes : option (list node)) (w : world) :
  str_truthy snapshot_name = false ∨ snapshot_nodes = None →
  post_api_addresses_snapshot snapshot_name snapshot_nodes w =
  (Ok (400, error "Invalid request body. snapshot_name and snapshot_nodes array are required"),
   w).
Proof.
  intros H. unfold post_api_addresses_snapshot.
  destruct snapshot_nodes as [nodes|]; [|reflexivity].
  destruct H as [H|H]; [rewrite H; reflexivity|discriminate].
Qed.

Lemma post_api_addresses_snapshot_unreachable
    (name : option string) (nodes : list node) (w : world) :
  w_db_up w = false →
  str_truthy name = true →
  post_api_addresses_snapshot name (Some nodes) w =
  (Throw (DbError ConnectionFailed), add_log [DbQuery BEGIN; DbQuery ROLLBACK] w).
Proof.
  intros Hup Hname. unfold post_api_addresses_snapshot. rewrite Hname.
  unfold try_catch, bind. rewrite pool_query_down by assumption.
  rewrite pool_query_down by (destruct w; assumption).
  destruct w; unfold add_log, log_event; simpl. rewrite <- app_assoc. reflexivity.
Qed.

(** X10: a body without a non-empty [snapshot_name], or whose
    [snapshot_nodes] is not an array, is answered 400 before anything else
    happens: the world is untouched (no BEGIN, no query). *)
Theorem save_rejects_malformed_body
    (snapshot_name : option string) (snapshot_nodes : option (list node)) (w : world) :
  str_truthy snapshot_name = false ∨ snapshot_nodes = None →
  post_api_addresses_snapshot snapshot_name snapshot_nodes w =
  (Ok (400, error "Invalid request body. snapshot_name and snapshot_nodes array are required"),
   w).
Proof. apply post_api_addresses_snapshot_malformed. Qed.

Lemma save_rejects_malformed_body_witness :
  post_api_addresses_snapshot (Some "") (Some [node_A]) empty_world =
  (Ok (400, error "Invalid request body. snapshot_name and snapshot_nodes array are required"),
   empty_world).
Proof.
  apply (save_rejects_malformed_body (Some "") (Some [node_A]) empty_world).
  left. reflexivity.
Defined.

(** X11: on a reachable database with no transaction open, a save is all
    or nothing: either it answers 200 with the new snapshot id, or it
    answers 400 or 500 and every table is exactly as before; in both cases
    no transaction is left open. *)
Theorem save_is_all_or_nothing (name : option string) (nodes : list node) (w : world) :
  w_db_up w = true →
  db_tx (w_db w) = None →
  ∃ status b w',
    post_api_addresses_snapshot name (Some nodes) w = (Ok (status, b), w') ∧
    db_tx (w_db w') = None ∧
    ((status = 200 ∧ ∃ id, b = snapshot_saved "Snapshot created/updated successfully" id) ∨
     ((status = 400 ∨ status = 500) ∧ db_tables (w_db w') = db_tables (w_db w))).
Proof.
  intros Hup Htx.
  destruct (str_truthy name) eqn:Hname.
  2:{ rewrite post_api_addresses_snapshot_malformed by (left; exact Hname).
      eexists 400, _, w. split; [reflexivity|]. split; [exact Htx|]. right. auto. }
  destruct name as [name|]; [|discriminate].
  rewrite post_api_addresses_snapshot_up by assumption. cbv zeta.
  pose proof (save_prepared_tx name _ Htx) as Htx2.
  set (d2 := save_prepared name (w_db w)) in *.
  destruct (insert_snapshot name d2) as [e|[sid d3]] eqn:Eins.
  - eexists 500, _, _. split; [reflexivity|]. simpl.
    unfold rollback_tx. rewrite Htx2. simpl. split; [reflexivity|]. right. auto.
  - apply insert_snapshot_inr in Eins as (_ & _ & _ & Hd3).
    assert (Htx3 : db_tx d3 = Some (db_tables (w_db w))) by (rewrite Hd3; exact Htx2).
    destruct (insert_all_nodes sid nodes _) as [[[r|]|e] w3] eqn:Erun.
    + apply insert_all_nodes_run in Erun as (_ & _ & _ & -> & _ & Hrb);
        [|destruct w; exact Hup].
      destruct (Hrb (db_tables (w_db w))) as [Htab Htx']; [destruct w; exact Htx3|].
      eexists 400, _, w3. split; [reflexivity|]. split; [exact Htx'|]. right. auto.
    + eexists 200, _, _. split; [reflexivity|]. split; [reflexivity|]. left. eauto.
    + apply insert_all_nodes_run in Erun as (_ & _ & _ & Htxe); [|destruct w; exact Hup].
      assert (Htxe' : db_tx (w_db w3) = Some (db_tables (w_db w))).
      { rewrite Htxe. destruct w; exact Htx3. }
      eexists 500, _, _. split; [reflexivity|]. simpl.
      unfold rollback_tx. rewrite Htxe'. simpl. split; [reflexivity|]. right. auto.
Qed.

Lemma save_is_all_or_nothing_witness :
  ∃ status b w',
    post_api_addresses_snapshot (Some "s") (Some [node_A; node_null_x]) world_after_first_save
      = (Ok (status, b), w') ∧
    db_tx (w_db w') = None ∧
    ((status = 200 ∧ ∃ id, b = snapshot_saved "Snapshot created/updated successfully" id) ∨
     ((status = 400 ∨ status = 500) ∧
      db_tables (w_db w') = db_tables (w_db world_after_first_save))).
Proof.
  apply (save_is_all_or_nothing (Some "s") [node_A; node_null_x] world_after_first_save).
  - vm_compute. reflexivity.
  - vm_compute. reflexivity.
Defined.

(** X12: when the database cannot be reached, a save with a well-formed
    body sends no response at all: BEGIN fails, the catch block's own
    ROLLBACK fails too, and that second failure is caught by nothing.  The
    database is not changed. *)
Theorem save_on_unreachable_database_does_not_answer
    (name : option string) (nodes : list node) (w : world) :
  w_db_up w = false →
  str_truthy name = true →
  post_api_addresses_snapshot name (Some nodes) w =
  (Throw (DbError ConnectionFailed), add_log [DbQuery BEGIN; DbQuery ROLLBACK] w).
Proof. apply post_api_addresses_snapshot_unreachable. Qed.

Lemma save_on_unreachable_database_does_not_answer_witness :
  post_api_addresses_snapshot (Some "s") (Some [node_A]) offline_world =
  (Throw (DbError ConnectionFailed), add_log [DbQuery BEGIN; DbQuery ROLLBACK] offline_world).
Proof.
  apply (save_on_unreachable_database_does_not_answer (Some "s") [node_A] offline_world);
    reflexivity.
Defined.












(** ** GET /api/security/check/:address *)

Lemma insert_security_check_inr (address : string) (score : field Z) (reports : json)
    (d d' : database) (stored : security_row) :
  insert_security_check address score reports d = inr (stored, d') →
  ∃ s,
    score = Val s ∧ int4_ok s = true ∧
    (address ∉ sc_address <$> security_check (db_tables d)) ∧
    stored = {| sc_address := address; sc_score := s; sc_reports := reports |} ∧
    d' = set_tables (set_security_check (security_check (db_tables d) ++ [stored])
                                       (db_tables d)) d.
Proof.
  unfold insert_security_check.
  destruct (varchar_not_null 42 "address" (Val address)) as [e|a'] eqn:Ea; [discriminate|].
  destruct (int4_not_null "score" score) as [e|s] eqn:Es; [discriminate|].
  apply varchar_not_null_inr in Ea as [Ea _]. inversion Ea; subst a'.
  apply int4_not_null_inr in Es as [-> Es].
  destruct (decide _) as [Hin|Hin]; [discriminate|].
  intros H. inversion H; subst. exists s. auto.
Qed.

(** Every path of the security route: what it answers and what it leaves. *)
Lemma security_check_effect (security_server : body → option (option security_data))
    (address : string) (w : world) :
  ∃ status b issued d',
    get_api_security_check security_server address w
      = (Ok (status, b), set_db d' (add_log issued w)) ∧
    (d' = w_db w ∨
     (status = 200 ∧
      (address ∉ sc_address <$> security_check (db_tables (w_db w))) ∧
      ∃ s r,
        b = security_result address s r false ∧
        d' = set_tables
               (set_security_check
                  (security_check (db_tables (w_db w)) ++
                   [ {| sc_address := address; sc_score := s; sc_reports := r |} ])
                  (db_tables (w_db w)))
               (w_db w))).
Proof.
  assert (Hsame : ∀ l, set_db (w_db w) (add_log l w) = add_log l w) by (intros; destruct w; reflexivity).
  destruct (address_regex address) eqn:Hre.
  2:{ unfold get_api_security_check. rewrite Hre, orb_true_r. unfold ret.
      eexists _, _, [], (w_db w). rewrite Hsame, add_log_nil. auto. }
  destruct (w_db_up w) eqn:Hup.
  2:{ rewrite security_check_db_down by assumption.
      eexists _, _, _, (w_db w). rewrite Hsame. auto. }
  destruct (select_security_check address (db_tables (w_db w))) as [|hit hits] eqn:Hsel.
  2:{ rewrite security_check_hit with (row := hit) (rest := hits) by assumption.
      eexists _, _, _, (w_db w). rewrite Hsame. auto. }
  destruct (select_address_metadata address (db_tables (w_db w))) as [|row rows] eqn:Hm.
  { rewrite security_check_unknown_address by assumption.
    eexists _, _, _, (w_db w). rewrite Hsame. auto. }
  rewrite security_check_miss with (row := row) (rest := rows) by assumption. cbv zeta.
  destruct (security_server (address_metadata row)) as [[data|]|];
    try (eexists _, _, _, (w_db w); rewrite Hsame; split; [reflexivity|left; reflexivity]).
  destruct (negb (int_truthy (score data)) || negb (prop_truthy (reports data)));
    try (eexists _, _, _, (w_db w); rewrite Hsame; split; [reflexivity|left; reflexivity]).
  simpl exec.
  destruct (insert_security_check _ _ _ (w_db w)) as [e|[stored d']] eqn:Eins.
  - rewrite add_log_add_log.
    eexists _, _, _, (w_db w). rewrite Hsame. split; [reflexivity|left; reflexivity].
  - apply insert_security_check_inr in Eins as (s & Hs & Hok & Hfresh & -> & ->).
    rewrite add_log_add_log. simpl.
    eexists _, _, _, _. split; [reflexivity|]. right.
    split; [reflexivity|]. split; [exact Hfresh|]. eauto.
Qed.

(** X17: whatever the address, the services and the state of the world,
    the security route answers, and it changes the database in one case
    only: when it answers 200 tagged [cached = false], it has appended one
    row, for that address and with the answered score and reports, to
    [security_check], which held no row for the address.  Every other
    answer (400, 500, or 200 from the cache) leaves the database exactly as
    it was, so a failed assessment is never remembered. *)
Theorem security_route_writes_only_fresh_scores
    (security_server : body → option (option security_data))
    (address : string) (w : world) :
  ∃ status b w',
    get_api_security_check security_server address w = (Ok (status, b), w') ∧
    (w_db w' = w_db w ∨
     (status = 200 ∧
      (address ∉ sc_address <$> security_check (db_tables (w_db w))) ∧
      ∃ s r,
        b = security_result address s r false ∧
        w_db w' = set_tables
                    (set_security_check
                       (security_check (db_tables (w_db w)) ++
                        [ {| sc_address := address; sc_score := s; sc_reports := r |} ])
                       (db_tables (w_db w)))
                    (w_db w))).
Proof.
  destruct (security_check_effect security_server address w)
    as (status & b & issued & d' & Hrun & Heff).
  exists status, b, (set_db d' (add_log issued w)). split; [exact Hrun|].
  destruct Heff as [-> |(Hst & Hfresh & s & r & Hb & ->)].
  - left. destruct w; reflexivity.
  - right. split; [exact Hst|]. split; [exact Hfresh|]. exists s, r. split; [exact Hb|].
    destruct w; reflexivity.
Qed.

(** X18: [address] stays a key of [security_check]: if no two rows share
    an address before a call of the security route, none do after it,
    whatever the call answers. *)
Theorem security_route_keeps_address_key
    (security_server : body → option (option security_data))
    (address : string) (w : world) :
  NoDup (sc_address <$> security_check (db_tables (w_db w))) →
  NoDup (sc_address <$>
         security_check
           (db_tables (w_db (snd (get_api_security_check security_server address w))))).
Proof.
  intros Hnd.
  destruct (security_check_effect security_server address w)
    as (status & b & issued & d' & Hrun & Heff).
  rewrite Hrun. simpl.
  destruct Heff as [-> |(_ & Hfresh & s & r & _ & ->)]; [exact Hnd|].
  simpl. rewrite fmap_app. apply NoDup_app. split; [exact Hnd|]. split.
  - intros a Ha Ha'. simpl in Ha'. apply list_elem_of_singleton in Ha'. subst a.
    exact (Hfresh Ha).
  - simpl. apply NoDup_singleton.
Qed.

Lemma security_route_keeps_address_key_witness :
  NoDup (sc_address <$>
         security_check
           (db_tables (w_db (snd (get_api_security_check sample_security_server addr_A
                                    known_address_world))))).
Proof.
  apply (security_route_keeps_address_key sample_security_server addr_A known_address_world).
  simpl. constructor.
Defined.

(** X19: a score that does not fit the INTEGER column is lost: for a
    fresh, known address and a security server answering with a non-zero
    score outside the 32-bit range and truthy reports, the route calls the
    server once, the insert is rejected, the answer is 500 and nothing is
    stored. *)
Theorem security_score_out_of_range_is_rejected
    (security_server : body → option (option security_data))
    (address : string) (w : world) (row : metadata_row) (rest : list metadata_row)
    (data : security_data) (s : Z) :
  w_db_up w = true →
  address_regex address = true →
  select_security_check address (db_tables (w_db w)) = [] →
  select_address_metadata address (db_tables (w_db w)) = row :: rest →
  security_server (address_metadata row) = Some (Some data) →
  score data = Val s → s ≠ 0 → int4_ok s = false →
  prop_truthy (reports data) = true →
  ∃ w',
    get_api_security_check security_server address w
      = (Ok (500, error_details "Error contacting security service"
                    (DbError (IntegerOutOfRange "score"))), w') ∧
    w_db w' = w_db w ∧
    scorer_calls w' = S (scorer_calls w).
Proof.
  intros Hup Hre Hfresh Hmeta Hss Hs Hs0 Hrange Hrep.
  rewrite security_check_miss with (row := row) (rest := rest) by assumption.
  cbv zeta. rewrite Hss, Hs, Hrep. rewrite (int_truthy_val _ Hs0). simpl negb. simpl orb.
  cbv iota. simpl exec. unfold insert_security_check. simpl varchar_not_null.
  rewrite (address_regex_length _ Hre). simpl Nat.leb. cbv iota.
  unfold int4_not_null. rewrite Hrange.
  eexists. split; [reflexivity|]. split; [destruct w; reflexivity|].
  rewrite !scorer_calls_add_log. simpl. lia.
Qed.

Lemma security_score_out_of_range_is_rejected_witness :
  ∃ w',
    get_api_security_check
      (λ _, Some (Some {| score := Val 4294967296; reports := Some sample_reports |}))
      addr_A known_address_world
      = (Ok (500, error_details "Error contacting security service"
                    (DbError (IntegerOutOfRange "score"))), w') ∧
    w_db w' = w_db known_address_world.
Proof.
  destruct (security_score_out_of_range_is_rejected
              (λ _, Some (Some {| score := Val 4294967296; reports := Some sample_reports |}))
              addr_A known_address_world
              {| m_address := addr_A_row; m_protocol := None |} []
              {| score := Val 4294967296; reports := Some sample_reports |} 4294967296)
    as (w' & Hrun & Hdb & _); try (vm_compute; reflexivity); try lia.
  exists w'. auto.
Defined.

(** X20: on a miss for a known address, what the security server receives
    is the address's own metadata row (joined with its protocol), in one
    request; when that request fails, or answers with an empty body, the
    route answers 500 and stores nothing. *)
Theorem security_server_receives_the_metadata_row
    (security_server : body → option (option security_data))
    (address : string) (w : world) (row : metadata_row) (rest : list metadata_row) :
  w_db_up w = true →
  address_regex address = true →
  select_security_check address (db_tables (w_db w)) = [] →
  select_address_metadata address (db_tables (w_db w)) = row :: rest →
  (∃ issued,
     w_log (snd (get_api_security_check security_server address w))
       = w_log w ++ issued ∧
     filter (λ e, is_scorer_call e = true) issued
       = [Http (SecurityServerPost (address_metadata row))]) ∧
  (security_server (address_metadata row) = None ∨
   security_server (address_metadata row) = Some None →
   ∃ detail w',
     get_api_security_check security_server address w
       = (Ok (500, error_details "Error contacting security service" detail), w') ∧
     w_db w' = w_db w).
Proof.
  intros Hup Hre Hfresh Hmeta.
  rewrite security_check_miss with (row := row) (rest := rest) by assumption. cbv zeta.
  split.
  - destruct (security_server (address_metadata row)) as [[data|]|];
      try (eexists; split; [reflexivity|reflexivity]).
    destruct (negb (int_truthy (score data)) || negb (prop_truthy (reports data)));
      try (eexists; split; [reflexivity|reflexivity]).
    destruct (exec _ (w_db w)) as [e|[stored d']]; simpl;
      (eexists; split; [rewrite <- app_assoc; reflexivity|reflexivity]).
  - intros [H|H]; rewrite H; eexists _, _; (split; [reflexivity|destruct w; reflexivity]).
Qed.

Lemma security_server_receives_the_metadata_row_witness :
  ∃ detail w',
    get_api_security_check (λ _, None) addr_A known_address_world
      = (Ok (500, error_details "Error contacting security service" detail), w') ∧
    w_db w' = w_db known_address_world.
Proof.
  destruct (security_server_receives_the_metadata_row (λ _, None) addr_A known_address_world
              {| m_address := addr_A_row; m_protocol := None |} [])
    as [_ H]; try (vm_compute; reflexivity).
  apply H. left. reflexivity.
Defined.

(** ** GET /api/snapshot/:snapshotName *)

Lemma get_api_snapshot_down (snapshotName : string) (w : world) :
  w_db_up w = false →
  get_api_snapshot snapshotName w =
  (Ok (500, error_of (DbError ConnectionFailed)),
   add_log [DbQuery (snapshotQuery snapshotName)] w).
Proof.
  intros Hup. unfold get_api_snapshot, try_catch, bind.
  rewrite pool_query_down by assumption. destruct w; reflexivity.
Qed.

Lemma select_normal_calls_ext (l1 l2 : list string) (t : tables) :
  (∀ a, a ∈ l1 ↔ a ∈ l2) → select_normal_calls l1 t = select_normal_calls l2 t.
Proof.
  intros H. unfold select_normal_calls. do 2 f_equal.
  apply filter_ext_elem. intros r _. rewrite !H. tauto.
Qed.

Lemma select_delegate_calls_ext (l1 l2 : list string) (t : tables) :
  (∀ a, a ∈ l1 ↔ a ∈ l2) → select_delegate_calls l1 t = select_delegate_calls l2 t.
Proof.
  intros H. unfold select_delegate_calls. do 2 f_equal.
  apply filter_ext_elem. intros r _. rewrite !H. tauto.
Qed.

Lemma select_normal_calls_known (addrs : list string) (t t' : tables) :
  traces t' = filter (λ r, t_action r ∈ read_actions) (traces t) →
  select_normal_calls addrs t' = select_normal_calls addrs t.
Proof.
  intros H. unfold select_normal_calls. rewrite H. do 2 f_equal.
  rewrite list_filter_filter. apply filter_ext_elem. intros r _.
  split; [tauto|]. intros (Ha & Hf & Ht). repeat split; try assumption.
  unfold read_actions. apply elem_of_app. left. exact Ha.
Qed.

Lemma select_delegate_calls_known (addrs : list string) (t t' : tables) :
  traces t' = filter (λ r, t_action r ∈ read_actions) (traces t) →
  select_delegate_calls addrs t' = select_delegate_calls addrs t.
Proof.
  intros H. unfold select_delegate_calls. rewrite H. do 2 f_equal.
  rewrite list_filter_filter. apply filter_ext_elem. intros r _.
  split; [tauto|]. intros (Ha & Hf & Ht). repeat split; try assumption.
  unfold read_actions. apply elem_of_app. right. exact Ha.
Qed.

(** X21: ledger rows whose action is none of call, create, create2 and
    delegate_call play no part in a snapshot read: removing them from the
    ledger changes no answer (they are put in neither class of edges). *)
Theorem read_ignores_other_actions (snapshotName : string) (w : world) :
  w_db_up w = true →
  fst (get_api_snapshot snapshotName
         (with_traces (filter (λ r, t_action r ∈ read_actions)
                              (traces (db_tables (w_db w)))) w))
  = fst (get_api_snapshot snapshotName w).
Proof.
  intros Hup. rewrite !get_api_snapshot_up by (destruct w; assumption).
  simpl fst. f_equal. unfold snapshot_response.
  set (w' := with_traces (filter (λ r, t_action r ∈ read_actions)
                                 (traces (db_tables (w_db w)))) w).
  assert (Hids : ∀ n, select_snapshot_ids n (db_tables (w_db w'))
                      = select_snapshot_ids n (db_tables (w_db w)))
    by (intros; destruct w; reflexivity).
  assert (Hnodes : ∀ i, select_nodes i (db_tables (w_db w'))
                        = select_nodes i (db_tables (w_db w)))
    by (intros; destruct w; reflexivity).
  assert (Htr : traces (db_tables (w_db w'))
                = filter (λ r, t_action r ∈ read_actions) (traces (db_tables (w_db w))))
    by (destruct w; reflexivity).
  rewrite Hids.
  destruct (select_snapshot_ids snapshotName (db_tables (w_db w))) as [|id ids]; [reflexivity|].
  cbv zeta. rewrite Hnodes.
  destruct (select_nodes id (db_tables (w_db w))) as [|v vs]; [reflexivity|].
  rewrite (select_normal_calls_known _ _ _ Htr), (select_delegate_calls_known _ _ _ Htr).
  reflexivity.
Qed.

Lemma read_ignores_other_actions_witness :
  fst (get_api_snapshot "s"
         (with_traces (filter (λ r, t_action r ∈ read_actions)
                              (traces (db_tables (w_db example_ledger_world))))
                      example_ledger_world))
  = fst (get_api_snapshot "s" example_ledger_world).
Proof.
  apply (read_ignores_other_actions "s" example_ledger_world). reflexivity.
Defined.

(** X22: the edges of a snapshot depend on which addresses its nodes
    have, not on how often or in which order: two reads against the same
    database whose node lists hold the same addresses return the same
    [traces].  (Several nodes may share an address; they do not multiply
    edges.) *)
Theorem read_edges_depend_on_the_address_set (name1 name2 : string) (w w1 w2 : world)
    (n1 n2 : string) (id1 id2 : Z) (nodes1 nodes2 : list snapshot_node)
    (edges1 edges2 : list js_object) :
  w_db_up w = true →
  get_api_snapshot name1 w = (Ok (200, snapshot_data n1 id1 nodes1 edges1), w1) →
  get_api_snapshot name2 w = (Ok (200, snapshot_data n2 id2 nodes2 edges2), w2) →
  (∀ a, a ∈ node_address <$> nodes1 ↔ a ∈ node_address <$> nodes2) →
  edges1 = edges2.
Proof.
  intros Hup H1 H2 Hsame.
  rewrite get_api_snapshot_up in H1, H2 by assumption.
  unfold snapshot_response in H1, H2.
  destruct (select_snapshot_ids name1 (db_tables (w_db w))) as [|i1 l1]; [discriminate|].
  destruct (select_snapshot_ids name2 (db_tables (w_db w))) as [|i2 l2]; [discriminate|].
  destruct (select_nodes i1 (db_tables (w_db w))) as [|v1 vs1] eqn:E1;
    destruct (select_nodes i2 (db_tables (w_db w))) as [|v2 vs2] eqn:E2;
    inversion H1; inversion H2; subst; clear H1 H2.
  - reflexivity.
  - exfalso. assert (H : node_address v2 ∈ node_address <$> v2 :: vs2) by (simpl; left).
    apply Hsame in H. inversion H.
  - exfalso. assert (H : node_address v1 ∈ node_address <$> v1 :: vs1) by (simpl; left).
    apply Hsame in H. inversion H.
  - rewrite (select_normal_calls_ext _ _ _ Hsame), (select_delegate_calls_ext _ _ _ Hsame).
    reflexivity.
Qed.

Lemma read_edges_depend_on_the_address_set_witness :
  answered_traces (fst (get_api_snapshot "s" two_layouts_world))
  = answered_traces (fst (get_api_snapshot "dup" two_layouts_world)).
Proof.
  apply (read_edges_depend_on_the_address_set "s" "dup" two_layouts_world
           (snd (get_api_snapshot "s" two_layouts_world))
           (snd (get_api_snapshot "dup" two_layouts_world)) "s" "dup" 1 2
           (answered_nodes (fst (get_api_snapshot "s" two_layouts_world)))
           (answered_nodes (fst (get_api_snapshot "dup" two_layouts_world)))).
  - reflexivity.
  - vm_compute. reflexivity.
  - vm_compute. reflexivity.
  - intros a. vm_compute answered_nodes. simpl.
    rewrite !elem_of_cons. split; intros H; tauto.
Defined.

(** ** The read routes as a whole *)

(** X23: with the database unreachable, the metadata route and the
    snapshot read answer 500 after their first query fails, and so does
    the security route for a well-formed address, without attempting any
    request to the metadata route or the security server. *)
Theorem unreachable_database_is_a_server_error
    (security_server : body → option (option security_data))
    (address snapshotName : string) (w : world) :
  w_db_up w = false →
  (∃ q, get_api_metadata_address address w
          = (Ok (500, error_of (DbError ConnectionFailed)), add_log [DbQuery q] w)) ∧
  get_api_snapshot snapshotName w
    = (Ok (500, error_of (DbError ConnectionFailed)),
       add_log [DbQuery (snapshotQuery snapshotName)] w) ∧
  (address_regex address = true →
   get_api_security_check security_server address w
     = (Ok (500, error_of (DbError ConnectionFailed)),
        add_log [DbQuery (checkExistingQuery address)] w)).
Proof.
  intros Hup. split; [|split].
  - rewrite get_api_metadata_address_run, Hup.
    destruct (length (split_commas address) =? 1)%nat; eauto.
  - apply get_api_snapshot_down. exact Hup.
  - intros Hre. apply security_check_db_down; assumption.
Qed.

Lemma unreachable_database_is_a_server_error_witness :
  get_api_snapshot "s" offline_world
    = (Ok (500, error_of (DbError ConnectionFailed)),
       add_log [DbQuery (snapshotQuery "s")] offline_world).
Proof.
  apply (unreachable_database_is_a_server_error sample_security_server addr_A "s"
           offline_world eq_refl).
Defined.

(** X24: the metadata route and the snapshot read answer every request
    and only read: all they issue is database queries (one for the
    metadata route, at most four for the snapshot read), no HTTP request,
    and the database is left as it was. *)
Theorem read_routes_only_read (address snapshotName : string) (w : world) :
  (∃ r q, get_api_metadata_address address w = (Ok r, add_log [DbQuery q] w)) ∧
  (∃ r issued,
     get_api_snapshot snapshotName w = (Ok r, add_log issued w) ∧
     Forall (λ e, is_db_query e = true) issued ∧
     (length issued ≤ 4)%nat).
Proof.
  split.
  - rewrite get_api_metadata_address_run.
    destruct (length (split_commas address) =? 1)%nat; eauto.
  - destruct (w_db_up w) eqn:Hup.
    + rewrite get_api_snapshot_up by assumption. eexists _, _. split; [reflexivity|].
      unfold snapshot_queries.
      destruct (select_snapshot_ids snapshotName (db_tables (w_db w))) as [|id ids].
      * split; [repeat constructor|simpl; lia].
      * destruct (select_nodes id (db_tables (w_db w))) as [|v vs].
        -- split; [repeat constructor|simpl; lia].
        -- split; [repeat constructor|simpl; lia].
    + rewrite get_api_snapshot_down by assumption. eexists _, _. split; [reflexivity|].
      split; [repeat constructor|simpl; lia].
Qed.

(** X25: the address list GET /api/trace sends to the database holds every
    address once: it has no duplicates and no empty string, however often
    an address occurs in the traces. *)
Theorem unique_addresses_are_unique (traces : list trace) :
  NoDup (unique_addresses traces) ∧ "" ∉ unique_addresses traces.
Proof.
  split.
  - unfold unique_addresses.
    assert (G : ∀ acc, NoDup acc → NoDup (fold_left add_trace_addresses traces acc)).
    { induction traces as [|t ts IH]; intros acc Hacc; simpl; [exact Hacc|].
      apply IH. unfold add_trace_addresses.
      assert (Hadd : ∀ v l, NoDup l → NoDup (add_if_truthy v l)).
      { intros v l Hl. unfold add_if_truthy. destruct v as [a|]; [|exact Hl].
        destruct (str_truthy (Some a)); [|exact Hl].
        destruct (decide (a ∈ l)) as [Hin|Hin]; [exact Hl|].
        apply NoDup_app. split; [exact Hl|]. split.
        - intros b Hb Hb'. apply list_elem_of_singleton in Hb'. subst b. exact (Hin Hb).
        - apply NoDup_singleton. }
      auto. }
    apply G. constructor.
  - intros H. apply unique_addresses_elem in H as (t & _ & Hne & _). apply Hne. reflexivity.
Qed.

(** ** POST /webhook *)

Module WebhookFacts.
Import Webhook.

Section Handler.

Variable hmac_sha256_hex : string → string → string.
Variable exec_fails : string → bool.
Variable member_text : string → string.

Lemma verifySignature_true (req : request) :
  verifySignature hmac_sha256_hex req = inr true ↔
  ∃ raw, rawBody req = Some raw ∧
         x_hub_signature_256 req = Some ("sha256=" +:+ hmac_sha256_hex SECRET raw).
Proof.
  unfold verifySignature, timingSafeEqual.
  destruct (rawBody req) as [raw|]; [|split; [discriminate|intros (? & ? & _); discriminate]].
  destruct (x_hub_signature_256 req) as [sig|].
  - cbv zeta. split.
    + destruct (String.length sig =? _)%nat; [|discriminate].
      intros H. injection H as He. apply String.eqb_eq in He. subst sig. eauto.
    + intros (raw' & Hr & Hs). inversion Hr; subst raw'. inversion Hs; subst sig.
      rewrite Nat.eqb_refl, String.eqb_refl. reflexivity.
  - split; [discriminate|]. intros (? & _ & ?). discriminate.
Qed.

(** X26: the listener runs a shell command only for a request whose
    signature header is exactly [sha256=] followed by the HMAC of its raw
    body under the shared secret; every other request (no header, no raw
    body, wrong digest) runs nothing. *)
Theorem webhook_runs_only_signed_requests (req : request) :
  snd (post_webhook hmac_sha256_hex exec_fails member_text req) ≠ [] →
  ∃ raw, rawBody req = Some raw ∧
         x_hub_signature_256 req = Some ("sha256=" +:+ hmac_sha256_hex SECRET raw).
Proof.
  unfold post_webhook. intros H.
  destruct (verifySignature hmac_sha256_hex req) as [e|[|]] eqn:E;
    try (destruct H; reflexivity).
  apply verifySignature_true. exact E.
Qed.

(** X27: a wrong signature is answered 403 only when it has the length of
    the expected one; a signature header of any other length makes the
    comparison raise (RangeError), and a request without the header or
    without raw body raises a TypeError: the handler sends no 403 then.
    In none of these cases is a command run. *)
Theorem webhook_signature_mismatch (req : request) :
  (rawBody req = None ∨ x_hub_signature_256 req = None →
   ∃ message,
     post_webhook hmac_sha256_hex exec_fails member_text req
       = (inl (TypeError message), [])) ∧
  (∀ raw signature,
     rawBody req = Some raw →
     x_hub_signature_256 req = Some signature →
     signature ≠ "sha256=" +:+ hmac_sha256_hex SECRET raw →
     post_webhook hmac_sha256_hex exec_fails member_text req =
     if (String.length signature
         =? String.length ("sha256=" +:+ hmac_sha256_hex SECRET raw))%nat
     then (inr (403, "Invalid signature"), [])
     else (inl (RangeError "Input buffers must have the same byte length"), [])).
Proof.
  unfold post_webhook, verifySignature, timingSafeEqual. split.
  - intros [H|H].
    + rewrite H. eauto.
    + rewrite H. destruct (rawBody req); eauto.
  - intros raw signature Hraw Hsig Hne. rewrite Hraw, Hsig. cbv zeta.
    destruct (String.length signature =? _)%nat; [|reflexivity].
    apply String.eqb_neq in Hne. rewrite Hne. reflexivity.
Qed.

(** X28: a signed push for DecodeFi/backend-morda runs exactly one
    command, [cd /home/craudit/backend && git pull origin main], and is
    answered 200 "Updated DecodeFi/backend-morda", or 500 "Pull failed"
    when the command ends with an error. *)
Theorem webhook_pulls_the_mapped_repository (req : request) (raw : string) :
  rawBody req = Some raw →
  x_hub_signature_256 req = Some ("sha256=" +:+ hmac_sha256_hex SECRET raw) →
  full_name req = Some "DecodeFi/backend-morda" →
  post_webhook hmac_sha256_hex exec_fails member_text req =
  (inr (if exec_fails "cd /home/craudit/backend && git pull origin main"
        then (500, "Pull failed")
        else (200, "Updated DecodeFi/backend-morda")),
   ["cd /home/craudit/backend && git pull origin main"]).
Proof.
  intros Hraw Hsig Hname. unfold post_webhook.
  rewrite (proj2 (verifySignature_true req)) by eauto.
  rewrite Hname. reflexivity.
Qed.

(** X29: for a signed request, the answer is 400 "Unknown repository"
    (and no command is run) exactly when the name is absent, or is neither
    the mapped repository nor the name of a member every object inherits:
    a name such as [constructor] passes the lookup [REPO_MAP[name]] and a
    command is run for it. *)
Theorem webhook_unknown_repository (req : request) (raw : string) :
  rawBody req = Some raw →
  x_hub_signature_256 req = Some ("sha256=" +:+ hmac_sha256_hex SECRET raw) →
  (post_webhook hmac_sha256_hex exec_fails member_text req
     = (inr (400, "Unknown repository: " +:+ name_text (full_name req)), []) ↔
   ∀ name, full_name req = Some name →
           name ≠ "DecodeFi/backend-morda" ∧ name ∉ object_prototype_members) ∧
  (∀ name, full_name req = Some name → name ∈ object_prototype_members →
           snd (post_webhook hmac_sha256_hex exec_fails member_text req)
             = ["cd " +:+ member_text name +:+ " && git pull origin main"]).
Proof.
  intros Hraw Hsig. unfold post_webhook.
  rewrite (proj2 (verifySignature_true req)) by eauto. cbv zeta.
  unfold REPO_MAP. destruct (full_name req) as [name|].
  - destruct (String.eqb name "DecodeFi/backend-morda") eqn:E.
    + apply String.eqb_eq in E. split.
      * split; [discriminate|]. intros H. destruct (H name eq_refl) as [H' _]. congruence.
      * intros n Hn Hin. inversion Hn; subst. vm_compute in Hin.
        repeat (apply elem_of_cons in Hin as [Hin|Hin]; [discriminate|]). inversion Hin.
    + apply String.eqb_neq in E. destruct (bool_decide (name ∈ object_prototype_members)) eqn:B.
      * apply bool_decide_eq_true in B. split.
        -- split; [discriminate|]. intros H. destruct (H name eq_refl) as [_ H']. contradiction.
        -- intros n Hn _. inversion Hn; subst. reflexivity.
      * apply bool_decide_eq_false in B. split.
        -- split; [|reflexivity]. intros _ n Hn. inversion Hn; subst. auto.
        -- intros n Hn Hin. inversion Hn; subst. contradiction.
  - split.
    + split; [|reflexivity]. intros _ n Hn. discriminate.
    + intros n Hn. discriminate.
Qed.

End Handler.

Lemma webhook_runs_only_signed_requests_witness :
  ∃ raw, rawBody (sample_push "DecodeFi/backend-morda") = Some raw ∧
         x_hub_signature_256 (sample_push "DecodeFi/backend-morda")
           = Some ("sha256=" +:+ sample_hmac SECRET raw).
Proof.
  apply (webhook_runs_only_signed_requests sample_hmac sample_exec_fails sample_member_text
           (sample_push "DecodeFi/backend-morda")).
  vm_compute. discriminate.
Defined.

Lemma webhook_signature_mismatch_witness :
  post_webhook sample_hmac sample_exec_fails sample_member_text
    {| x_hub_signature_256 := Some "sha256=abc"; rawBody := Some "{}";
       full_name := Some "DecodeFi/backend-morda" |}
  = (inl (RangeError "Input buffers must have the same byte length"), []).
Proof.
  apply (proj2 (webhook_signature_mismatch sample_hmac sample_exec_fails sample_member_text
                  {| x_hub_signature_256 := Some "sha256=abc"; rawBody := Some "{}";
                     full_name := Some "DecodeFi/backend-morda" |}) "{}" "sha256=abc").
  - reflexivity.
  - reflexivity.
  - discriminate.
Defined.

Lemma webhook_pulls_the_mapped_repository_witness :
  post_webhook sample_hmac sample_exec_fails sample_member_text
    (sample_push "DecodeFi/backend-morda")
  = (inr (200, "Updated DecodeFi/backend-morda"),
     ["cd /home/craudit/backend && git pull origin main"]).
Proof.
  apply (webhook_pulls_the_mapped_repository sample_hmac sample_exec_fails sample_member_text
           (sample_push "DecodeFi/backend-morda") "{}"); reflexivity.
Defined.

Lemma webhook_unknown_repository_witness :
  snd (post_webhook sample_hmac sample_exec_fails sample_member_text
         (sample_push "constructor"))
  = ["cd function Object() { [native code] } && git pull origin main"].
Proof.
  apply (proj2 (webhook_unknown_repository sample_hmac sample_exec_fails sample_member_text
                  (sample_push "constructor") "{}" eq_refl eq_refl) "constructor").
  - reflexivity.
  - left.
Defined.

End WebhookFacts.
